(** * umoci, oci/casext/refname.go: reference names over the top-level index

    A shallow embedding of [isKnownMediaType], [ResolveReference],
    [UpdateReference], [AddReferences], [DeleteReference] and
    [ListReferences], and the properties of them that the specification
    states.

    Conventions of the embedding:
    - a Go [map[string]string] that may be nil is an [option (gmap string string)],
      [None] being the nil map; reading a nil map is allowed in Go and yields
      the zero value, writing to it is not (the code guards every write);
    - a Go slice is a [list]; the nil slice and the empty slice are both [[]];
    - a Go [error] result is an [option error], [None] being [nil];
    - the engine (store, blobs, log) is threaded explicitly: every method
      takes an [Engine] and returns its result with the engine afterwards;
    - descriptors are values: the index handed out by [GetIndex] shares no
      annotation map with the descriptors a caller passes in. *)

From stdpp Require Import base option list strings gmap.
From Stdlib Require Import ZArith Lia.

Local Open Scope string_scope.
Local Open Scope list_scope.

#[local] Set Warnings "-clear-no-such-hyp".

(** ** Data model *)

(** [ispec.Descriptor], with the fields the specification lists. *)
Record Descriptor := mkDescriptor {
  MediaType : string;
  Digest : string;
  Size : Z;
  Annotations : option (gmap string string)
}.

(** [ispec.Index]: the code only ever touches [Manifests]. *)
Record Index := mkIndex {
  SchemaVersion : Z;
  Manifests : list Descriptor;
  IndexAnnotations : option (gmap string string)
}.

#[global] Instance Descriptor_eq_dec : EqDecision Descriptor.
Proof. solve_decision. Defined.

#[global] Instance Index_eq_dec : EqDecision Index.
Proof. solve_decision. Defined.

(** Go errors: the prune sentinel of the walker, a failure of an external
    collaborator, and [errors.Wrap] around a cause. *)
Inductive error :=
| ErrSkipDescriptor
| ErrExternal (msg : string)
| Wrap (cause : error) (msg : string).

#[global] Instance error_eq_dec : EqDecision error.
Proof. solve_decision. Defined.

(** [m[k]] on a possibly nil map: the zero value when the key is absent. *)
Definition mapIndex (m : option (gmap string string)) (k : string) : string :=
  match m with
  | Some m' => default "" (m' !! k)
  | None => ""
  end.

(** [v, ok := m[k]]: [None] stands for [ok = false]. *)
Definition mapLookup (m : option (gmap string string)) (k : string) : option string :=
  match m with
  | Some m' => m' !! k
  | None => None
  end.

(** Modelled from the spec: [ispec.AnnotationRefName], the reserved
    annotation key; refname.go imports it, and the doc comment of
    [ResolveReference] quotes its value. *)
Definition AnnotationRefName : string := "org.opencontainers.image.ref.name".

(** Modelled from the spec: [ispec.MediaTypeDescriptor], the known media type
    descriptor (image-spec, imported by refname.go). *)
Definition MediaTypeDescriptor : string := "application/vnd.oci.descriptor.v1+json".

(** Modelled from the spec: [ispec.MediaTypeImageManifest], the known media type
    image-manifest (image-spec, imported by refname.go). *)
Definition MediaTypeImageManifest : string := "application/vnd.oci.image.manifest.v1+json".

(** Modelled from the spec: [ispec.MediaTypeImageIndex], the known media type
    image-index (image-spec, imported by refname.go). *)
Definition MediaTypeImageIndex : string := "application/vnd.oci.image.index.v1+json".

(** Modelled from the spec: [ispec.MediaTypeImageLayer], the known media type
    image-layer (image-spec, imported by refname.go). *)
Definition MediaTypeImageLayer : string := "application/vnd.oci.image.layer.v1.tar".

(** Modelled from the spec: [ispec.MediaTypeImageLayerGzip], the known media type
    image-layer-gzip (image-spec, imported by refname.go). *)
Definition MediaTypeImageLayerGzip : string := "application/vnd.oci.image.layer.v1.tar+gzip".

(** Modelled from the spec: [ispec.MediaTypeImageLayerNonDistributable], the known media type
    image-layer-nondistributable (image-spec, imported by refname.go). *)
Definition MediaTypeImageLayerNonDistributable : string :=
  "application/vnd.oci.image.layer.nondistributable.v1.tar".

(** Modelled from the spec: [ispec.MediaTypeImageLayerNonDistributableGzip], the known media type
    image-layer-nondistributable-gzip (image-spec, imported by refname.go). *)
Definition MediaTypeImageLayerNonDistributableGzip : string :=
  "application/vnd.oci.image.layer.nondistributable.v1.tar+gzip".

(** Modelled from the spec: [ispec.MediaTypeImageConfig], the known media type
    image-config (image-spec, imported by refname.go). *)
Definition MediaTypeImageConfig : string := "application/vnd.oci.image.config.v1+json".

(** The fixed known set of the specification's data model. *)
Definition knownMediaTypes : list string :=
  [ MediaTypeDescriptor; MediaTypeImageManifest; MediaTypeImageIndex;
    MediaTypeImageLayer; MediaTypeImageLayerGzip;
    MediaTypeImageLayerNonDistributable;
    MediaTypeImageLayerNonDistributableGzip; MediaTypeImageConfig ].

(** ** The engine *)

(** What an operation does to the outside world, in the order it happens. *)
Inductive Event :=
| CallGetIndex
| CallPutIndex (index : Index)
| CallWalk (root : Descriptor)
| LogWarn (msg : string)
| LogDebug (refs : list Descriptor) (msg : string).

#[global] Instance Event_eq_dec : EqDecision Event.
Proof. solve_decision. Defined.

(** The engine behind the methods: the stored top-level index, the blobs
    with the descriptors each one refers to, the failures the store is
    going to answer with, and the trace of what happened so far. *)
Record Engine := mkEngine {
  storedIndex : Index;
  blobs : gmap string (list Descriptor);
  getIndexErr : option error;
  putIndexErr : option error;
  trace : list Event
}.

Definition record (ev : Event) (e : Engine) : Engine :=
  mkEngine (storedIndex e) (blobs e) (getIndexErr e) (putIndexErr e) (trace e ++ [ev]).

(** Modelled from the spec: [GetIndex] of the store (not in refname.go),
    "returns the current top-level index snapshot", or fails. *)
Definition GetIndex (e : Engine) : (Index + error) * Engine :=
  let e := record CallGetIndex e in
  match getIndexErr e with
  | Some err => (inr err, e)
  | None => (inl (storedIndex e), e)
  end.

(** Modelled from the spec: [PutIndex] of the store (not in refname.go),
    "atomically replaces the stored top-level index with the given
    sequence", or fails and leaves it as it was. *)
Definition PutIndex (index : Index) (e : Engine) : option error * Engine :=
  let e := record (CallPutIndex index) e in
  match putIndexErr e with
  | Some err => (Some err, e)
  | None => (None, mkEngine index (blobs e) (getIndexErr e) (putIndexErr e) (trace e))
  end.

(** [log.Warn]. *)
Definition logWarn (msg : string) (e : Engine) : Engine := record (LogWarn msg) e.

(** ** isKnownMediaType *)

Definition isKnownMediaType (mediaType : string) : bool :=
  bool_decide (mediaType = MediaTypeDescriptor) ||
  bool_decide (mediaType = MediaTypeImageManifest) ||
  bool_decide (mediaType = MediaTypeImageIndex) ||
  bool_decide (mediaType = MediaTypeImageLayer) ||
  bool_decide (mediaType = MediaTypeImageLayerGzip) ||
  bool_decide (mediaType = MediaTypeImageLayerNonDistributable) ||
  bool_decide (mediaType = MediaTypeImageLayerNonDistributableGzip) ||
  bool_decide (mediaType = MediaTypeImageConfig).

(** ** The visitor of ResolveReference *)

(** A [WalkFunc] closure: the slice it appends to is passed in and out. *)
Definition Visitor := Descriptor -> list Descriptor -> option error * list Descriptor.

(** The function literal handed to [Walk]; [resolutions] is the captured
    variable of the same name. *)
Definition visit : Visitor := fun descriptor resolutions =>
  if isKnownMediaType (MediaType descriptor)
     && negb (bool_decide (MediaType descriptor = MediaTypeImageManifest))
  then (None, resolutions)
  else (Some ErrSkipDescriptor, resolutions ++ [descriptor]).

(** ** The graph walker *)

(** What the walker carries along one walk: the digests it has been at,
    and the visitor's slice. *)
Definition WalkState : Type := gset string * list Descriptor.

(** A loop over descriptors that stops at the first error. *)
Fixpoint walkEach (step : Descriptor -> WalkState -> option error * WalkState)
    (ds : list Descriptor) (st : WalkState) : option error * WalkState :=
  match ds with
  | [] => (None, st)
  | d :: ds' =>
      match step d st with
      | (Some err, st') => (Some err, st')
      | (None, st') => walkEach step ds' st'
      end
  end.

(** The error of a walk that runs out of levels. *)
Definition errTooDeep : error := ErrExternal "walk: descent deeper than the store".

(** Modelled from the spec: the traversal behind [Walk] (walk.go, which
    refname.go calls into): "recursion into index/manifest children,
    digest deduplication, visitor invocation". The visitor is called at a
    descriptor before anything of it is fetched; the prune sentinel ends
    the descent at that descriptor without failing the walk; any other
    error of the visitor, and a blob that cannot be fetched, abort the
    walk. [fuel] bounds the depth of the descent. *)
Fixpoint recurse (fuel : nat) (store : gmap string (list Descriptor))
    (walkFunc : Visitor) (descriptor : Descriptor) (st : WalkState)
    : option error * WalkState :=
  match fuel with
  | O => (Some errTooDeep, st)
  | S fuel' =>
      if decide (Digest descriptor ∈ st.1) then (None, st)
      else
        let seen := {[ Digest descriptor ]} ∪ st.1 in
        match walkFunc descriptor st.2 with
        | (Some err, acc) =>
            if decide (err = ErrSkipDescriptor) then (None, (seen, acc))
            else (Some err, (seen, acc))
        | (None, acc) =>
            match store !! Digest descriptor with
            | None => (Some (ErrExternal ("get blob " +:+ Digest descriptor)), (seen, acc))
            | Some children =>
                walkEach (recurse fuel' store walkFunc) children (seen, acc)
            end
        end
  end.

(** Modelled from the spec: [Walk(ctx, root, visit)] of the engine, a
    walk from [root] that starts with nothing seen. A descent passes
    through distinct blobs of the store, so [S (size store)] levels are
    all a walk can need (see [recurse_fuel_enough]). *)
Definition Walk (root : Descriptor) (walkFunc : Visitor) (acc : list Descriptor)
    (e : Engine) : (option error * list Descriptor) * Engine :=
  let e := record (CallWalk root) e in
  let '(err, (_, acc')) := recurse (S (size (blobs e))) (blobs e) walkFunc root (∅, acc) in
  ((err, acc'), e).

(** ** ResolveReference *)

(** The reference name of a top-level entry, as every loop of the file
    reads it: [descriptor.Annotations[ispec.AnnotationRefName]]. *)
Definition refNameOf (descriptor : Descriptor) : string :=
  mapIndex (Annotations descriptor) AnnotationRefName.

(** The first loop of [ResolveReference]: the root links that match. *)
Definition selectRoots (refname : string) (manifests : list Descriptor) : list Descriptor :=
  fold_left
    (fun roots descriptor =>
       if decide (refNameOf descriptor = refname) then roots ++ [descriptor] else roots)
    manifests [].

(** The second loop of [ResolveReference]: one walk per root, all of them
    appending to [resolutions]; the first walk that fails ends the call. *)
Fixpoint walkRoots (roots : list Descriptor) (resolutions : list Descriptor) (e : Engine)
    : (list Descriptor + error) * Engine :=
  match roots with
  | [] => (inl resolutions, e)
  | root :: roots' =>
      match Walk root visit resolutions e with
      | ((Some err, _), e') => (inr (Wrap err ("walk " +:+ Digest root)), e')
      | ((None, resolutions'), e') => walkRoots roots' resolutions' e'
      end
  end.

Definition ResolveReference (refname : string) (e : Engine)
    : (list Descriptor * option error) * Engine :=
  match GetIndex e with
  | (inr err, e) => (([], Some (Wrap err "get top-level index")), e)
  | (inl index, e) =>
      let roots := selectRoots refname (Manifests index) in
      match walkRoots roots [] e with
      | (inr err, e) => (([], Some err), e)
      | (inl resolutions, e) =>
          let e := record (LogDebug resolutions
                     ("casext.ResolveReference(" +:+ refname +:+ ") got these descriptors")) e in
          ((resolutions, None), e)
      end
  end.

(** ** The mutators *)

(** The loop shared by [UpdateReference] and [DeleteReference]: the
    entries whose reference name is not [refname]. *)
Definition dropReference (refname : string) (manifests : list Descriptor) : list Descriptor :=
  fold_left
    (fun newIndex descriptor =>
       if decide (refNameOf descriptor ≠ refname) then newIndex ++ [descriptor] else newIndex)
    manifests [].

(** The test that guards the warning, on Go's [int]: no length reaches
    2^63, so the subtraction is the one of [Z]. *)
Definition removedMoreThanOne (newIndex manifests : list Descriptor) : bool :=
  (Z.of_nat (length newIndex) - Z.of_nat (length manifests) >? 1)%Z.

(** The three statements that give a descriptor its reference name: a nil
    map is replaced by an empty one before the key is written. *)
Definition setRefName (refname : string) (descriptor : Descriptor) : Descriptor :=
  let annotations :=
    match Annotations descriptor with
    | None => ∅
    | Some m => m
    end in
  mkDescriptor (MediaType descriptor) (Digest descriptor) (Size descriptor)
    (Some (<[AnnotationRefName := refname]> annotations)).

Definition withManifests (index : Index) (manifests : list Descriptor) : Index :=
  mkIndex (SchemaVersion index) manifests (IndexAnnotations index).

Definition UpdateReference (refname : string) (descriptor : Descriptor) (e : Engine)
    : option error * Engine :=
  match GetIndex e with
  | (inr err, e) => (Some (Wrap err "get top-level index"), e)
  | (inl index, e) =>
      let newIndex := dropReference refname (Manifests index) in
      let e :=
        if removedMoreThanOne newIndex (Manifests index)
        then logWarn "multiple references match the given reference name -- all of them have been replaced due to this ambiguity" e
        else e in
      let descriptor := setRefName refname descriptor in
      let newIndex := newIndex ++ [descriptor] in
      let index := withManifests index newIndex in
      match PutIndex index e with
      | (Some err, e) => (Some (Wrap err "replace index"), e)
      | (None, e) => (None, e)
      end
  end.

(** The loop of [AddReferences] over the descriptors given. *)
Definition convertDescriptors (refname : string) (descriptors : list Descriptor)
    : list Descriptor :=
  fold_left
    (fun convertedDescriptors descriptor =>
       convertedDescriptors ++ [setRefName refname descriptor])
    descriptors [].

Definition AddReferences (refname : string) (descriptors : list Descriptor) (e : Engine)
    : option error * Engine :=
  if decide (length descriptors = 0) then (None, e)
  else
    match GetIndex e with
    | (inr err, e) => (Some (Wrap err "get top-level index"), e)
    | (inl index, e) =>
        let e :=
          if decide (1 < length descriptors)
          then logWarn "umoci has been requested to add multiple descriptors with the same reference name -- this is intentionally creating ambiguity in the OCI image that some tools may be unable to resolve" e
          else e in
        let convertedDescriptors := convertDescriptors refname descriptors in
        let index := withManifests index (Manifests index ++ convertedDescriptors) in
        match PutIndex index e with
        | (Some err, e) => (Some (Wrap err "replace index"), e)
        | (None, e) => (None, e)
        end
    end.

Definition DeleteReference (refname : string) (e : Engine) : option error * Engine :=
  match GetIndex e with
  | (inr err, e) => (Some (Wrap err "get top-level index"), e)
  | (inl index, e) =>
      let newIndex := dropReference refname (Manifests index) in
      let e :=
        if removedMoreThanOne newIndex (Manifests index)
        then logWarn "multiple references match the given reference name -- all of them have been deleted due to this ambiguity" e
        else e in
      let index := withManifests index newIndex in
      match PutIndex index e with
      | (Some err, e) => (Some (Wrap err "replace index"), e)
      | (None, e) => (None, e)
      end
  end.

Definition ListReferences (e : Engine) : (list string * option error) * Engine :=
  match GetIndex e with
  | (inr err, e) => (([], Some (Wrap err "get top-level index")), e)
  | (inl index, e) =>
      let refs :=
        fold_left
          (fun refs descriptor =>
             match mapLookup (Annotations descriptor) AnnotationRefName with
             | Some ref => refs ++ [ref]
             | None => refs
             end)
          (Manifests index) [] in
      ((refs, None), e)
  end.

(** ** Engines and descriptors to run the code on *)

Definition tagged (mediaType digest ref : string) : Descriptor :=
  mkDescriptor mediaType digest 2 (Some {[ AnnotationRefName := ref ]}).

Definition untagged (mediaType digest : string) : Descriptor :=
  mkDescriptor mediaType digest 2 None.

Definition engineOf (manifests : list Descriptor) (store : gmap string (list Descriptor))
    : Engine :=
  mkEngine (mkIndex 2 manifests None) store None None [].

(** An index in which two entries carry [latest], around one that has no
    reference name. *)
Definition ambiguousManifests : list Descriptor :=
  [ tagged MediaTypeImageManifest "sha256:a" "latest";
    untagged MediaTypeImageManifest "sha256:u";
    tagged MediaTypeImageManifest "sha256:b" "latest";
    tagged MediaTypeImageManifest "sha256:c" "stable" ].

Definition ambiguousEngine : Engine := engineOf ambiguousManifests ∅.

Definition newManifest : Descriptor := untagged MediaTypeImageManifest "sha256:d".

(** ** What the properties speak of *)

(** A descriptor that carries a reference name in a map of its own. *)
Definition hasRefName (refname : string) (d : Descriptor) : Prop :=
  exists m, Annotations d = Some m /\ m !! AnnotationRefName = Some refname.

(** An entry that carries the reference-name key, whatever its value. *)
Definition carriesRefName (d : Descriptor) : Prop :=
  is_Some (mapLookup (Annotations d) AnnotationRefName).

#[global] Instance carriesRefName_dec d : Decision (carriesRefName d).
Proof. unfold carriesRefName. apply _. Defined.

(** An index with the reference name a twice. *)
Definition duplicateEngine : Engine :=
  engineOf [ tagged MediaTypeImageManifest "sha256:a" "a";
             untagged MediaTypeImageManifest "sha256:u";
             tagged MediaTypeImageIndex "sha256:b" "a" ] ∅.

(** Two entries tagged v1, the second an image index whose blob the store
    does not hold. *)
Definition brokenEngine : Engine :=
  engineOf [ tagged MediaTypeImageManifest "sha256:a" "v1";
             tagged MediaTypeImageIndex "sha256:i" "v1" ] ∅.


(** An index without the reference name v2. *)
Definition taggedEngine : Engine :=
  engineOf [ tagged MediaTypeImageManifest "sha256:a" "v1";
             untagged MediaTypeImageIndex "sha256:i" ] ∅.

(** The indexes handed to [PutIndex] along a trace, oldest first. *)
Definition puts (tr : list Event) : list Index :=
  omap (fun ev => match ev with CallPutIndex index => Some index | _ => None end) tr.

(** The warnings logged along a trace. *)
Definition warnings (tr : list Event) : list string :=
  omap (fun ev => match ev with LogWarn msg => Some msg | _ => None end) tr.

(** The roots handed to [Walk] along a trace. *)
Definition walks (tr : list Event) : list Descriptor :=
  omap (fun ev => match ev with CallWalk root => Some root | _ => None end) tr.

(** What the visitor records: an image manifest, or a blob of a media
    type outside the known set. *)
Definition resolvable (d : Descriptor) : Prop :=
  MediaType d = MediaTypeImageManifest \/ MediaType d ∉ knownMediaTypes.

(** A store that answers both [GetIndex] and [PutIndex]. *)
Definition storeAnswers (e : Engine) : Prop :=
  getIndexErr e = None /\ putIndexErr e = None.

(** A descriptor that comes with annotations of its own. *)
Definition annotatedManifest : Descriptor :=
  mkDescriptor MediaTypeImageManifest "sha256:n" 7
    (Some {[ "org.opencontainers.image.created" := "2017-01-01";
             AnnotationRefName := "old" ]}).

(** A store whose index cannot be read. *)
Definition unreadableEngine : Engine :=
  mkEngine (mkIndex 2 ambiguousManifests None) ∅
    (Some (ErrExternal "open index.json")) None [].

(** A store that refuses to replace its index. *)
Definition readOnlyEngine : Engine :=
  mkEngine (mkIndex 2 ambiguousManifests None) ∅
    None (Some (ErrExternal "index.json: read-only file system")) [].

(** What tagging does to a descriptor: the reference-name key is set,
    every other annotation and the size are as they were. *)
Definition taggedFrom (refname : string) (d descriptor : Descriptor) : Prop :=
  mapLookup (Annotations d) AnnotationRefName = Some refname
  /\ (forall key, key ≠ AnnotationRefName ->
        mapLookup (Annotations d) key = mapLookup (Annotations descriptor) key)
  /\ Size d = Size descriptor.

(** * Properties *)

(** ** The loops as filters and maps *)

Section Loops.
Context {A : Type} (P : A -> Prop) `{!∀ x, Decision (P x)}.

Lemma fold_left_keep (l acc : list A) :
  fold_left (fun acc x => if decide (P x) then acc ++ [x] else acc) l acc
  = acc ++ filter P l.
Proof.
  revert acc. induction l as [|x l IH]; intros acc; simpl.
  - by rewrite app_nil_r.
  - rewrite IH. rewrite filter_cons. destruct (decide (P x)); [|done].
    by rewrite <- app_assoc.
Qed.
End Loops.

Lemma selectRoots_filter refname manifests :
  selectRoots refname manifests = filter (fun d => refNameOf d = refname) manifests.
Proof. unfold selectRoots. by rewrite (fold_left_keep (fun d => refNameOf d = refname)). Qed.

Lemma dropReference_filter refname manifests :
  dropReference refname manifests = filter (fun d => refNameOf d ≠ refname) manifests.
Proof. unfold dropReference. by rewrite (fold_left_keep (fun d => refNameOf d ≠ refname)). Qed.

Lemma fold_left_snoc_map {A B : Type} (f : A -> B) (l : list A) (acc : list B) :
  fold_left (fun acc x => acc ++ [f x]) l acc = acc ++ map f l.
Proof.
  revert acc. induction l as [|x l IH]; intros acc; simpl.
  - by rewrite app_nil_r.
  - rewrite IH. by rewrite <- app_assoc.
Qed.

Lemma convertDescriptors_map refname descriptors :
  convertDescriptors refname descriptors = map (setRefName refname) descriptors.
Proof. unfold convertDescriptors. by rewrite fold_left_snoc_map. Qed.

(** ** Reference names *)

Lemma refNameOf_setRefName refname descriptor :
  refNameOf (setRefName refname descriptor) = refname.
Proof. unfold refNameOf, setRefName, mapIndex; simpl. by rewrite lookup_insert_eq. Qed.

Lemma refNameOf_unset descriptor :
  mapLookup (Annotations descriptor) AnnotationRefName = None ->
  refNameOf descriptor = "".
Proof.
  unfold refNameOf, mapIndex, mapLookup.
  destruct (Annotations descriptor) as [m|]; [|done]. by intros ->.
Qed.

(** ** The warning of the mutators *)

Lemma dropReference_length refname manifests :
  length (dropReference refname manifests) <= length manifests.
Proof. rewrite dropReference_filter. apply length_filter. Qed.

(** The guard of the warning compares the lengths the wrong way round:
    what is kept is never longer than what was there. *)
Lemma removedMoreThanOne_dropReference refname manifests :
  removedMoreThanOne (dropReference refname manifests) manifests = false.
Proof.
  unfold removedMoreThanOne. pose proof (dropReference_length refname manifests).
  rewrite Z.gtb_ltb. apply Z.ltb_ge. lia.
Qed.

(** What a run of a mutator adds to the trace when the store answers. *)
Lemma UpdateReference_run refname descriptor e :
  getIndexErr e = None -> putIndexErr e = None ->
  let index := withManifests (storedIndex e)
                 (dropReference refname (Manifests (storedIndex e))
                    ++ [setRefName refname descriptor]) in
  UpdateReference refname descriptor e
  = (None, mkEngine index (blobs e) None None
             (trace e ++ [CallGetIndex] ++ [CallPutIndex index])).
Proof.
  intros Hget Hput. unfold UpdateReference, GetIndex, PutIndex, record; simpl.
  rewrite Hget; simpl. rewrite removedMoreThanOne_dropReference; simpl.
  rewrite Hput; simpl. by rewrite <- app_assoc.
Qed.

Lemma DeleteReference_run refname e :
  getIndexErr e = None -> putIndexErr e = None ->
  let index := withManifests (storedIndex e)
                 (dropReference refname (Manifests (storedIndex e))) in
  DeleteReference refname e
  = (None, mkEngine index (blobs e) None None
             (trace e ++ [CallGetIndex] ++ [CallPutIndex index])).
Proof.
  intros Hget Hput. unfold DeleteReference, GetIndex, PutIndex, record; simpl.
  rewrite Hget; simpl. rewrite removedMoreThanOne_dropReference; simpl.
  rewrite Hput; simpl. by rewrite <- app_assoc.
Qed.

(** A mutator that returns no error found a store that answered. *)
Lemma UpdateReference_ok refname descriptor e e' :
  UpdateReference refname descriptor e = (None, e') ->
  getIndexErr e = None /\ putIndexErr e = None.
Proof.
  unfold UpdateReference, GetIndex, PutIndex, record; simpl.
  destruct (getIndexErr e); [done|]; simpl.
  rewrite removedMoreThanOne_dropReference; simpl.
  by destruct (putIndexErr e).
Qed.


(** Neither [UpdateReference] nor [DeleteReference] ever logs a warning,
    whatever the index holds. *)
Lemma mutators_never_warn refname descriptor e msg :
  (LogWarn msg ∈ trace (UpdateReference refname descriptor e).2 -> LogWarn msg ∈ trace e)
  /\ (LogWarn msg ∈ trace (DeleteReference refname e).2 -> LogWarn msg ∈ trace e).
Proof.
  unfold UpdateReference, DeleteReference, GetIndex, PutIndex, record; simpl.
  destruct (getIndexErr e); simpl.
  - split; intros [H|H%list_elem_of_singleton]%elem_of_app; done.
  - rewrite removedMoreThanOne_dropReference; simpl.
    destruct (putIndexErr e); simpl; split; rewrite !elem_of_app, !list_elem_of_singleton;
      intros [[?|?]|?]; done.
Qed.

(** C1: on an index where two entries carry the reference name, the
    claim expects [UpdateReference] and [DeleteReference] to log the
    ambiguity warning and succeed. Run on such an index (two entries tagged
    latest are removed), both succeed, but the trace of each holds the
    fetch and the commit only: no warning is logged. *)
Theorem C1_ambiguous_removal_logs_no_warning :
  length (selectRoots "latest" ambiguousManifests) = 2
  /\ (UpdateReference "latest" newManifest ambiguousEngine).1 = None
  /\ trace (UpdateReference "latest" newManifest ambiguousEngine).2
     = [ CallGetIndex;
         CallPutIndex (mkIndex 2
           [ untagged MediaTypeImageManifest "sha256:u";
             tagged MediaTypeImageManifest "sha256:c" "stable";
             tagged MediaTypeImageManifest "sha256:d" "latest" ] None) ]
  /\ (DeleteReference "latest" ambiguousEngine).1 = None
  /\ trace (DeleteReference "latest" ambiguousEngine).2
     = [ CallGetIndex;
         CallPutIndex (mkIndex 2
           [ untagged MediaTypeImageManifest "sha256:u";
             tagged MediaTypeImageManifest "sha256:c" "stable" ] None) ].
Proof. vm_compute. repeat split; reflexivity. Qed.

(** ** The visitor *)

(** [isKnownMediaType] decides membership in the fixed known set. *)
Lemma isKnownMediaType_spec mediaType :
  isKnownMediaType mediaType = true <-> mediaType ∈ knownMediaTypes.
Proof.
  unfold isKnownMediaType, knownMediaTypes.
  rewrite !orb_true_iff, !bool_decide_eq_true, !elem_of_cons, elem_of_nil.
  split.
  - intros [[[[[[[H|H]|H]|H]|H]|H]|H]|H]; auto 10.
  - intros [H|[H|[H|[H|[H|[H|[H|[H|[]]]]]]]]]; auto 10.
Qed.

(** C2: at every descriptor the walk hands to the visitor, a media type
    of the known set other than image-manifest gives the continue signal
    (a nil error) and records nothing; image-manifest, and any media type
    outside the known set, appends the descriptor to the resolutions and
    gives the prune signal [ErrSkipDescriptor]. *)
Theorem C2_visit_continue_or_record (descriptor : Descriptor) (resolutions : list Descriptor) :
  (MediaType descriptor ∈ knownMediaTypes
   /\ MediaType descriptor ≠ MediaTypeImageManifest ->
   visit descriptor resolutions = (None, resolutions))
  /\ (MediaType descriptor = MediaTypeImageManifest
      \/ MediaType descriptor ∉ knownMediaTypes ->
      visit descriptor resolutions = (Some ErrSkipDescriptor, resolutions ++ [descriptor])).
Proof.
  unfold visit. split.
  - intros [Hknown Hnot]. apply isKnownMediaType_spec in Hknown. rewrite Hknown.
    by rewrite bool_decide_eq_false_2.
  - intros [Hmanifest|Hunknown].
    + rewrite (bool_decide_eq_true_2 _ Hmanifest). by rewrite andb_false_r.
    + destruct (isKnownMediaType (MediaType descriptor)) eqn:Hknown; [|done].
      by apply isKnownMediaType_spec in Hknown.
Qed.

(** The policy on an index entry, on a manifest and on a custom type. *)
Lemma C2_visit_witness :
  visit (untagged MediaTypeImageIndex "sha256:i") [newManifest] = (None, [newManifest])
  /\ visit newManifest [] = (Some ErrSkipDescriptor, [newManifest])
  /\ visit (untagged "application/x-custom" "sha256:x") []
     = (Some ErrSkipDescriptor, [untagged "application/x-custom" "sha256:x"]).
Proof.
  split; [|split].
  - apply (C2_visit_continue_or_record (untagged MediaTypeImageIndex "sha256:i") [newManifest]).
    split; [apply isKnownMediaType_spec; reflexivity | discriminate].
  - apply (C2_visit_continue_or_record newManifest []). left. reflexivity.
  - apply (C2_visit_continue_or_record (untagged "application/x-custom" "sha256:x") []).
    right. intros H. apply isKnownMediaType_spec in H. discriminate H.
Defined.

(** ** The walker *)

Section Walker.
Variables (store : gmap string (list Descriptor)) (walkFunc : Visitor).

Lemma recurse_seen_mono fuel d st :
  st.1 ⊆ (recurse fuel store walkFunc d st).2.1.
Proof.
  revert d st. induction fuel as [|fuel IH]; intros d [seen acc]; simpl; [done|].
  destruct (decide (Digest d ∈ seen)); [done|].
  destruct (walkFunc d acc) as [[err|] acc'].
  - destruct (decide (err = ErrSkipDescriptor)); simpl; set_solver.
  - destruct (store !! Digest d) as [children|]; [|simpl; set_solver].
    assert (Hgrow : forall st', {[Digest d]} ∪ seen ⊆ st'.1 ->
              seen ⊆ (walkEach (recurse fuel store walkFunc) children st').2.1).
    { induction children as [|c cs IHc]; intros st' Hst'; simpl; [set_solver|].
      pose proof (IH c st') as Hc.
      destruct (recurse fuel store walkFunc c st') as [[err|] st'']; simpl in *.
      - set_solver.
      - apply IHc. set_solver. }
    apply Hgrow. done.
Qed.

(** A descriptor at which the visitor prunes ends the descent there:
    nothing of it is fetched, and the walk goes on without error. *)
Lemma recurse_prune fuel d seen acc acc' :
  Digest d ∉ seen ->
  walkFunc d acc = (Some ErrSkipDescriptor, acc') ->
  recurse (S fuel) store walkFunc d (seen, acc) = (None, ({[Digest d]} ∪ seen, acc')).
Proof.
  intros Hnew Hvisit. simpl. rewrite decide_False by done. rewrite Hvisit.
  by rewrite decide_True.
Qed.

Hypothesis walkFunc_errors : forall d acc, (walkFunc d acc).1 ≠ Some errTooDeep.

Lemma walkEach_fuel_enough fuel children :
  (forall d st, size (dom store ∖ st.1) < fuel ->
                (recurse fuel store walkFunc d st).1 ≠ Some errTooDeep) ->
  forall st, size (dom store ∖ st.1) < fuel ->
  (walkEach (recurse fuel store walkFunc) children st).1 ≠ Some errTooDeep.
Proof.
  intros Hstep. induction children as [|c cs IHc]; intros st Hst; simpl; [done|].
  pose proof (Hstep c st Hst) as Hc. pose proof (recurse_seen_mono fuel c st) as Hmono.
  destruct (recurse fuel store walkFunc c st) as [[err|] st']; simpl in *; [done|].
  apply IHc. eapply Nat.le_lt_trans; [|exact Hst].
  apply subseteq_size. set_solver.
Qed.

(** With one level per blob of the store that has not been seen, and
    one more, a descent never runs out of levels. *)
Lemma recurse_fuel_enough fuel d st :
  size (dom store ∖ st.1) < fuel ->
  (recurse fuel store walkFunc d st).1 ≠ Some errTooDeep.
Proof.
  revert d st. induction fuel as [|fuel IH]; intros d [seen acc] Hfuel; [simpl in *; lia|].
  simpl in *. destruct (decide (Digest d ∈ seen)); [done|].
  pose proof (walkFunc_errors d acc) as Hvisit.
  destruct (walkFunc d acc) as [[err|] acc']; simpl in *.
  - destruct (decide (err = ErrSkipDescriptor)); simpl; [done|congruence].
  - destruct (store !! Digest d) as [children|] eqn:Hblob; [|simpl; discriminate].
    apply walkEach_fuel_enough; [exact IH|]. simpl.
    assert (dom store ∖ ({[Digest d]} ∪ seen) ⊂ dom store ∖ seen) as Hless.
    { apply elem_of_dom_2 in Hblob. set_solver. }
    apply subset_size in Hless. lia.
Qed.
End Walker.

Lemma visit_errors d acc : (visit d acc).1 ≠ Some errTooDeep.
Proof. unfold visit. by destruct (_ && _). Qed.

(** The walks of [ResolveReference] never run out of levels. *)
Lemma Walk_visit_not_too_deep root acc e :
  (Walk root visit acc e).1.1 ≠ Some errTooDeep.
Proof.
  unfold Walk. cbn [blobs record].
  pose proof (recurse_fuel_enough (blobs e) visit visit_errors
                (S (size (blobs e))) root (∅, acc)) as Hfuel.
  destruct (recurse _ _ _ _ _) as [err [seen acc']]. simpl in *. apply Hfuel.
  apply Nat.lt_succ_r. rewrite <- size_dom. apply subseteq_size. set_solver.
Qed.

Lemma Walk_engine root walkFunc acc e :
  (Walk root walkFunc acc e).2 = record (CallWalk root) e.
Proof. unfold Walk. by destruct (recurse _ _ _ _ _) as [err [seen acc']]. Qed.

(** The visitor at an image manifest or at a media type it does not know. *)
Lemma visit_prunes d acc :
  MediaType d = MediaTypeImageManifest \/ MediaType d ∉ knownMediaTypes ->
  visit d acc = (Some ErrSkipDescriptor, acc ++ [d]).
Proof.
  unfold visit. intros [Hmanifest|Hunknown].
  - rewrite (bool_decide_eq_true_2 _ Hmanifest). by rewrite andb_false_r.
  - destruct (isKnownMediaType (MediaType d)) eqn:Hknown; [|done].
    by apply isKnownMediaType_spec in Hknown.
Qed.

(** A root that is an image manifest, or of no known media type, is the
    one resolution of its walk, whatever the store holds below it. *)
Lemma Walk_root_recorded root acc e :
  MediaType root = MediaTypeImageManifest \/ MediaType root ∉ knownMediaTypes ->
  Walk root visit acc e = ((None, acc ++ [root]), record (CallWalk root) e).
Proof.
  intros Hroot. unfold Walk.
  rewrite (recurse_prune _ visit _ root ∅ acc (acc ++ [root])); [done|set_solver|].
  by apply visit_prunes.
Qed.

(** The walker on the cases the specification lists as testable: an image
    index is passed through to the manifest below it, a custom media type
    is resolved to itself without descent, and two roots with one name are
    both resolved, in index order. *)
Example resolve_through_index :
  (ResolveReference "v1"
     (engineOf [tagged MediaTypeImageIndex "sha256:i" "v1"]
        {[ "sha256:i" := [untagged MediaTypeImageManifest "sha256:m"] ]})).1
  = ([untagged MediaTypeImageManifest "sha256:m"], None).
Proof. reflexivity. Qed.

Example resolve_custom_type :
  (ResolveReference "v2"
     (engineOf [tagged "application/x-custom" "sha256:x" "v2"]
        {[ "sha256:x" := [untagged MediaTypeImageManifest "sha256:m"] ]})).1
  = ([tagged "application/x-custom" "sha256:x" "v2"], None).
Proof. reflexivity. Qed.

Example resolve_ambiguous :
  (ResolveReference "latest" ambiguousEngine).1
  = ([ tagged MediaTypeImageManifest "sha256:a" "latest";
       tagged MediaTypeImageManifest "sha256:b" "latest" ], None).
Proof. reflexivity. Qed.

Example resolve_nothing :
  (ResolveReference "absent" ambiguousEngine).1 = ([], None).
Proof. reflexivity. Qed.

(** ** UpdateReference *)

Lemma filter_filter_same {A} (P : A -> Prop) `{!∀ x, Decision (P x)} (l : list A) :
  filter P (filter P l) = filter P l.
Proof.
  induction l as [|x l IH]; [done|]. rewrite filter_cons.
  destruct (decide (P x)) as [HP|HP]; [|done].
  rewrite filter_cons, decide_True by done. by rewrite IH.
Qed.

Lemma filter_filter_not {A} (P : A -> Prop) `{!∀ x, Decision (P x)} (l : list A) :
  filter P (filter (fun x => ¬ P x) l) = [].
Proof.
  induction l as [|x l IH]; [done|]. rewrite filter_cons.
  destruct (decide (¬ P x)) as [HP|HP]; [|done].
  rewrite filter_cons, decide_False by done. by rewrite IH.
Qed.

(** C3: after a successful [UpdateReference refname descriptor], the index
    that was committed (the one handed to [PutIndex], which is then the
    stored one) is the former entries whose reference name is not
    [refname], unchanged and in their order, followed by [descriptor]
    tagged with [refname]; that last entry is the only one whose reference
    name is [refname]. *)
Theorem C3_UpdateReference_one_entry (refname : string) (descriptor : Descriptor)
    (e e' : Engine) :
  UpdateReference refname descriptor e = (None, e') ->
  let old := Manifests (storedIndex e) in
  let new := Manifests (storedIndex e') in
  trace e' = trace e ++ [CallGetIndex; CallPutIndex (storedIndex e')]
  /\ new = filter (fun d => refNameOf d ≠ refname) old ++ [setRefName refname descriptor]
  /\ filter (fun d => refNameOf d = refname) new = [setRefName refname descriptor]
  /\ filter (fun d => refNameOf d ≠ refname) new = filter (fun d => refNameOf d ≠ refname) old
  /\ SchemaVersion (storedIndex e') = SchemaVersion (storedIndex e)
  /\ IndexAnnotations (storedIndex e') = IndexAnnotations (storedIndex e).
Proof.
  intros Hrun. destruct (UpdateReference_ok _ _ _ _ Hrun) as [Hget Hput].
  rewrite (UpdateReference_run refname descriptor e Hget Hput) in Hrun.
  injection Hrun as <-. simpl. rewrite dropReference_filter.
  repeat split.
  - rewrite filter_app, (filter_filter_not (fun d => refNameOf d = refname)).
    rewrite filter_cons, decide_True by apply refNameOf_setRefName. done.
  - rewrite filter_app, (filter_filter_same (fun d => refNameOf d ≠ refname)).
    rewrite filter_cons, decide_False, filter_nil, app_nil_r; [done|].
    intros H. apply H, refNameOf_setRefName.
Qed.

Lemma C3_UpdateReference_witness :
  let e' := (UpdateReference "latest" newManifest ambiguousEngine).2 in
  UpdateReference "latest" newManifest ambiguousEngine = (None, e')
  /\ Manifests (storedIndex e')
     = [ untagged MediaTypeImageManifest "sha256:u";
         tagged MediaTypeImageManifest "sha256:c" "stable";
         tagged MediaTypeImageManifest "sha256:d" "latest" ]
  /\ filter (fun d => refNameOf d = "latest") (Manifests (storedIndex e'))
     = [setRefName "latest" newManifest].
Proof.
  split; [reflexivity|]. split; [reflexivity|].
  apply (C3_UpdateReference_one_entry "latest" newManifest ambiguousEngine _ eq_refl).
Defined.

(** ** AddReferences *)

(** C4: [AddReferences] with no descriptor returns no error and leaves the
    engine as it was: the stored index is the same, and nothing is added to
    the trace, so neither [GetIndex] nor [PutIndex] was called (not even a
    store that would fail is noticed). *)
Theorem C4_AddReferences_nothing (refname : string) (e : Engine) :
  AddReferences refname [] e = (None, e).
Proof. reflexivity. Qed.

Lemma AddReferences_run refname descriptors e :
  descriptors ≠ [] -> getIndexErr e = None -> putIndexErr e = None ->
  let index := withManifests (storedIndex e)
                 (Manifests (storedIndex e) ++ map (setRefName refname) descriptors) in
  AddReferences refname descriptors e
  = (None, mkEngine index (blobs e) None None
             (trace e ++ [CallGetIndex]
                ++ (if decide (1 < length descriptors)
                    then [LogWarn "umoci has been requested to add multiple descriptors with the same reference name -- this is intentionally creating ambiguity in the OCI image that some tools may be unable to resolve"]
                    else [])
                ++ [CallPutIndex index])).
Proof.
  intros Hne Hget Hput. unfold AddReferences.
  destruct (decide (length descriptors = 0)) as [H0|_].
  { by destruct descriptors. }
  unfold GetIndex, PutIndex, logWarn, record; simpl. rewrite Hget; simpl.
  rewrite convertDescriptors_map.
  destruct (decide (1 < length descriptors)); simpl; rewrite Hput; simpl;
    by rewrite <- !app_assoc.
Qed.

Lemma AddReferences_ok refname descriptors e e' :
  descriptors ≠ [] ->
  AddReferences refname descriptors e = (None, e') ->
  getIndexErr e = None /\ putIndexErr e = None.
Proof.
  intros Hne. unfold AddReferences.
  destruct (decide (length descriptors = 0)) as [H0|_].
  { by destruct descriptors. }
  unfold GetIndex, PutIndex, logWarn, record; simpl.
  destruct (getIndexErr e); [done|]; simpl.
  by destruct (decide (1 < length descriptors)); simpl; destruct (putIndexErr e).
Qed.

Lemma hasRefName_setRefName refname descriptor :
  hasRefName refname (setRefName refname descriptor).
Proof. eexists; split; [reflexivity|]. apply lookup_insert_eq. Qed.

(** C5: the descriptor that a successful [UpdateReference] appends to the
    committed index, and each descriptor that a successful [AddReferences]
    appends, has a non-nil annotations map in which the reference-name key
    is [refname]; a descriptor that came with a nil map gets the map that
    holds just that key. *)
Theorem C5_tagged_entries_have_annotations (refname : string) :
  (forall descriptor e e',
     UpdateReference refname descriptor e = (None, e') ->
     exists d, last (Manifests (storedIndex e')) = Some d
       /\ last (trace e') = Some (CallPutIndex (storedIndex e'))
       /\ hasRefName refname d
       /\ Digest d = Digest descriptor /\ MediaType d = MediaType descriptor
       /\ (Annotations descriptor = None ->
           Annotations d = Some {[ AnnotationRefName := refname ]}))
  /\ (forall descriptors e e',
        descriptors ≠ [] ->
        AddReferences refname descriptors e = (None, e') ->
        exists added,
          Manifests (storedIndex e') = Manifests (storedIndex e) ++ added
          /\ last (trace e') = Some (CallPutIndex (storedIndex e'))
          /\ Forall (hasRefName refname) added
          /\ Forall2 (fun d descriptor =>
               Digest d = Digest descriptor /\ MediaType d = MediaType descriptor
               /\ (Annotations descriptor = None ->
                   Annotations d = Some {[ AnnotationRefName := refname ]}))
             added descriptors).
Proof.
  split.
  - intros descriptor e e' Hrun.
    destruct (UpdateReference_ok _ _ _ _ Hrun) as [Hget Hput].
    rewrite (UpdateReference_run refname descriptor e Hget Hput) in Hrun.
    injection Hrun as <-. simpl. exists (setRefName refname descriptor).
    split; [apply last_snoc|]. split; [by apply last_Some; exists (trace e ++ [CallGetIndex]); rewrite <- app_assoc|].
    split; [apply hasRefName_setRefName|]. repeat split.
    intros Hnil. unfold setRefName. by rewrite Hnil.
  - intros descriptors e e' Hne Hrun.
    destruct (AddReferences_ok _ _ _ _ Hne Hrun) as [Hget Hput].
    rewrite (AddReferences_run refname descriptors e Hne Hget Hput) in Hrun.
    injection Hrun as <-. simpl. exists (map (setRefName refname) descriptors).
    split; [done|]. split.
    { apply last_Some. destruct (decide (1 < length descriptors));
        [eexists (trace e ++ [CallGetIndex; _]) | exists (trace e ++ [CallGetIndex])];
        rewrite <- app_assoc; reflexivity. }
    split.
    + apply Forall_forall. intros d [x [-> _]]%list_elem_of_fmap.
      apply hasRefName_setRefName.
    + clear. induction descriptors as [|x l IH]; constructor; [|done].
      repeat split. intros Hnil. unfold setRefName. by rewrite Hnil.
Qed.

Lemma C5_tagged_entries_witness :
  (exists d,
     last (Manifests (storedIndex (UpdateReference "latest" newManifest ambiguousEngine).2))
     = Some d
     /\ hasRefName "latest" d
     /\ Annotations d = Some {[ AnnotationRefName := "latest" ]})
  /\ (exists added,
        Manifests (storedIndex (AddReferences "latest" [newManifest] ambiguousEngine).2)
        = ambiguousManifests ++ added
        /\ Forall (hasRefName "latest") added).
Proof.
  split.
  - destruct (proj1 (C5_tagged_entries_have_annotations "latest")
                newManifest ambiguousEngine _ eq_refl)
      as (d & Hlast & _ & Hhas & _ & _ & Hnil).
    exists d. split; [exact Hlast|]. split; [exact Hhas|]. apply Hnil. reflexivity.
  - destruct (proj2 (C5_tagged_entries_have_annotations "latest")
                [newManifest] ambiguousEngine _ ltac:(discriminate) eq_refl)
      as (added & Hnew & _ & Hhas & _).
    exists added. split; [exact Hnew | exact Hhas].
Defined.

(** ** ListReferences *)

Lemma refNameOf_carried d ref :
  mapLookup (Annotations d) AnnotationRefName = Some ref -> refNameOf d = ref.
Proof.
  unfold refNameOf, mapIndex, mapLookup.
  destruct (Annotations d) as [m|]; [|done]. by intros ->.
Qed.

Lemma listRefs_loop (manifests : list Descriptor) (refs : list string) :
  fold_left
    (fun refs descriptor =>
       match mapLookup (Annotations descriptor) AnnotationRefName with
       | Some ref => refs ++ [ref]
       | None => refs
       end)
    manifests refs
  = refs ++ map refNameOf (filter carriesRefName manifests).
Proof.
  revert refs. induction manifests as [|d l IH]; intros refs; simpl.
  - by rewrite app_nil_r.
  - rewrite IH, filter_cons.
    destruct (decide (carriesRefName d)) as [[ref Hd]|Hd].
    + rewrite Hd. simpl. rewrite (refNameOf_carried d ref Hd). by rewrite <- app_assoc.
    + destruct (mapLookup (Annotations d) AnnotationRefName) as [ref|] eqn:Hl; [|done].
      destruct Hd. unfold carriesRefName. rewrite Hl. eauto.
Qed.

(** C6: when the index can be fetched, [ListReferences] returns, without
    error, the reference name of each top-level entry that carries the
    reference-name key, entry by entry in the order of the index, nothing
    sorted and nothing dropped: as many names as there are such entries.
    An index with two entries of reference name a yields a, a. *)
Theorem C6_ListReferences_in_index_order :
  (forall e : Engine,
     getIndexErr e = None ->
     let tagged_entries := filter carriesRefName (Manifests (storedIndex e)) in
     (ListReferences e).1 = (map refNameOf tagged_entries, None)
     /\ length (ListReferences e).1.1 = length tagged_entries
     /\ storedIndex (ListReferences e).2 = storedIndex e)
  /\ (ListReferences duplicateEngine).1 = (["a"; "a"], None).
Proof.
  split; [|reflexivity].
  intros e Hget. unfold ListReferences, GetIndex, record; simpl. rewrite Hget; simpl.
  rewrite listRefs_loop; simpl. by rewrite length_map.
Qed.

Lemma C6_ListReferences_witness :
  (ListReferences ambiguousEngine).1 = (["latest"; "latest"; "stable"], None).
Proof.
  destruct (proj1 C6_ListReferences_in_index_order ambiguousEngine eq_refl) as [-> _].
  reflexivity.
Defined.

(** ** ResolveReference *)

Lemma walkRoots_app before after resolutions e :
  walkRoots (before ++ after) resolutions e
  = match walkRoots before resolutions e with
    | (inr err, e') => (inr err, e')
    | (inl resolutions', e') => walkRoots after resolutions' e'
    end.
Proof.
  revert resolutions e. induction before as [|root roots IH]; intros resolutions e; [done|].
  simpl. destruct (Walk root visit resolutions e) as [[[err|] acc] e']; [done|]. apply IH.
Qed.

Lemma walkRoots_blobs roots resolutions e :
  blobs (walkRoots roots resolutions e).2 = blobs e.
Proof.
  revert resolutions e. induction roots as [|root roots IH]; intros resolutions e; [done|].
  simpl. pose proof (Walk_engine root visit resolutions e) as He.
  destruct (Walk root visit resolutions e) as [[[err|] acc] e']; simpl in He; subst e'.
  - done.
  - by rewrite IH.
Qed.

(** When the walk of one of the roots cannot succeed, the loop over the
    roots ends in the error of the first walk that fails. *)
Lemma walkRoots_fails store root roots resolutions e :
  blobs e = store ->
  root ∈ roots ->
  (forall acc e1, blobs e1 = store -> (Walk root visit acc e1).1.1 ≠ None) ->
  exists root' err acc e1,
    root' ∈ roots /\ blobs e1 = store
    /\ (Walk root' visit acc e1).1.1 = Some err
    /\ (walkRoots roots resolutions e).1 = inr (Wrap err ("walk " +:+ Digest root')).
Proof.
  intros Hstore Hin Hfail. revert resolutions e Hstore.
  induction roots as [|r roots IH]; intros resolutions e Hstore; [by apply elem_of_nil in Hin|].
  simpl. pose proof (Walk_engine r visit resolutions e) as He.
  destruct (Walk r visit resolutions e) as [[[err|] acc] e'] eqn:Hwalk; simpl in He.
  - exists r, err, resolutions, e. rewrite Hwalk. split; [apply list_elem_of_here|done].
  - apply elem_of_cons in Hin as [->|Hin].
    { exfalso. apply (Hfail resolutions e Hstore). by rewrite Hwalk. }
    destruct (IH Hin acc e') as (root' & err & acc' & e1 & Hroot' & Hother).
    { by subst e'. }
    exists root', err, acc', e1. split; [by apply list_elem_of_further|done].
Qed.

(** C7: when the index cannot be fetched, [ResolveReference] returns no
    descriptor and the error wrapped with get top-level index. When the
    walk of a matching root fails, after the walks of the roots before it
    went through, it returns that error wrapped with walk and the digest of
    the root, and no descriptor, whatever the earlier walks had collected;
    and whenever some matching root has a walk that cannot succeed, the call
    returns no descriptor and the wrapped error of a walk that failed. *)
Theorem C7_ResolveReference_fails_whole (refname : string) (e : Engine) :
  (forall err, getIndexErr e = Some err ->
     (ResolveReference refname e).1 = ([], Some (Wrap err "get top-level index")))
  /\ (forall before root after resolutions e1 err acc e2,
        getIndexErr e = None ->
        selectRoots refname (Manifests (storedIndex e)) = before ++ root :: after ->
        walkRoots before [] (record CallGetIndex e) = (inl resolutions, e1) ->
        Walk root visit resolutions e1 = ((Some err, acc), e2) ->
        (ResolveReference refname e).1
        = ([], Some (Wrap err ("walk " +:+ Digest root))))
  /\ (forall root,
        getIndexErr e = None ->
        root ∈ selectRoots refname (Manifests (storedIndex e)) ->
        (forall acc e1, blobs e1 = blobs e -> (Walk root visit acc e1).1.1 ≠ None) ->
        exists root' err acc e1,
          root' ∈ selectRoots refname (Manifests (storedIndex e))
          /\ blobs e1 = blobs e
          /\ (Walk root' visit acc e1).1.1 = Some err
          /\ (ResolveReference refname e).1
             = ([], Some (Wrap err ("walk " +:+ Digest root')))).
Proof.
  split; [|split].
  - intros err Hget. unfold ResolveReference, GetIndex. cbn [getIndexErr record].
    by rewrite Hget.
  - intros before root after resolutions e1 err acc e2 Hget Hroots Hbefore Hwalk.
    unfold ResolveReference, GetIndex. cbn [getIndexErr record storedIndex].
    rewrite Hget. fold (record CallGetIndex e). rewrite Hroots, walkRoots_app, Hbefore.
    simpl. by rewrite Hwalk.
  - intros root Hget Hin Hfail.
    destruct (walkRoots_fails (blobs e) root _ [] (record CallGetIndex e) eq_refl Hin Hfail)
      as (root' & err & acc & e1 & Hroot' & Hblobs & Hwalk & Hloop).
    exists root', err, acc, e1. split; [done|]. split; [done|]. split; [done|].
    unfold ResolveReference, GetIndex. cbn [getIndexErr record storedIndex].
    rewrite Hget. fold (record CallGetIndex e).
    destruct (walkRoots _ [] (record CallGetIndex e)) as [[res|err'] e']; simpl in *.
    + discriminate Hloop.
    + by injection Hloop as ->.
Qed.

Lemma C7_ResolveReference_witness :
  (ResolveReference "v1" brokenEngine).1
  = ([], Some (Wrap (ErrExternal "get blob sha256:i") "walk sha256:i"))
  /\ (ResolveReference "v1"
        (mkEngine (mkIndex 2 [] None) ∅ (Some (ErrExternal "open index.json")) None [])).1
     = ([], Some (Wrap (ErrExternal "open index.json") "get top-level index")).
Proof.
  split.
  - apply (proj1 (proj2 (C7_ResolveReference_fails_whole "v1" brokenEngine))
             [tagged MediaTypeImageManifest "sha256:a" "v1"]
             (tagged MediaTypeImageIndex "sha256:i" "v1") []
             [tagged MediaTypeImageManifest "sha256:a" "v1"]
             (record (CallWalk (tagged MediaTypeImageManifest "sha256:a" "v1"))
                (record CallGetIndex brokenEngine))
             (ErrExternal "get blob sha256:i")
             [tagged MediaTypeImageManifest "sha256:a" "v1"]
             (record (CallWalk (tagged MediaTypeImageIndex "sha256:i" "v1"))
                (record (CallWalk (tagged MediaTypeImageManifest "sha256:a" "v1"))
                   (record CallGetIndex brokenEngine))));
      reflexivity.
  - apply (proj1 (C7_ResolveReference_fails_whole "v1" _)). reflexivity.
Defined.

(** ** AddReferences, then ResolveReference *)





(** ** DeleteReference *)

Lemma last_two {A} (l : list A) (a b : A) : last (l ++ [a] ++ [b]) = Some b.
Proof. rewrite app_assoc. apply last_snoc. Qed.

(** C9: with a store that answers, [DeleteReference refname] twice in a
    row succeeds both times, and the second call commits (and leaves
    stored) the very index the first call committed; when no entry has the
    reference name, a call commits the entries it found. *)
Theorem C9_DeleteReference_idempotent (refname : string) (e : Engine) :
  getIndexErr e = None -> putIndexErr e = None ->
  let first := DeleteReference refname e in
  let second := DeleteReference refname first.2 in
  first.1 = None /\ second.1 = None
  /\ last (trace first.2) = Some (CallPutIndex (storedIndex first.2))
  /\ last (trace second.2) = Some (CallPutIndex (storedIndex first.2))
  /\ storedIndex second.2 = storedIndex first.2
  /\ (filter (fun d => refNameOf d = refname) (Manifests (storedIndex e)) = [] ->
      storedIndex first.2 = storedIndex e).
Proof.
  intros Hget Hput.
  pose proof (DeleteReference_run refname e Hget Hput) as H1.
  cbv zeta in H1. cbv zeta. rewrite H1. cbn [fst snd].
  match goal with |- context [DeleteReference refname ?e1] =>
    pose proof (DeleteReference_run refname e1) as H2 end.
  cbv zeta in H2. cbn [getIndexErr putIndexErr] in H2.
  specialize (H2 eq_refl eq_refl). rewrite H2. clear H1 H2.
  cbn [fst snd storedIndex trace].
  rewrite !dropReference_filter. unfold withManifests.
  cbn [Manifests SchemaVersion IndexAnnotations].
  rewrite (filter_filter_same (fun d => refNameOf d ≠ refname)).
  split; [reflexivity|]. split; [reflexivity|].
  split; [apply last_two|]. split; [apply last_two|]. split; [reflexivity|].
  intros Hnone. destruct (storedIndex e) as [v manifests a].
  cbn [Manifests SchemaVersion IndexAnnotations] in *. f_equal.
  induction manifests as [|d l IH]; [reflexivity|].
  rewrite filter_cons in Hnone. rewrite filter_cons.
  destruct (decide (refNameOf d = refname)) as [Heq|Hne]; [discriminate Hnone|].
  rewrite decide_True by exact Hne. f_equal. apply IH, Hnone.
Qed.

Lemma C9_DeleteReference_witness :
  let first := DeleteReference "latest" ambiguousEngine in
  let second := DeleteReference "latest" first.2 in
  first.1 = None /\ second.1 = None
  /\ Manifests (storedIndex first.2)
     = [ untagged MediaTypeImageManifest "sha256:u";
         tagged MediaTypeImageManifest "sha256:c" "stable" ]
  /\ storedIndex second.2 = storedIndex first.2.
Proof.
  destruct (C9_DeleteReference_idempotent "latest" ambiguousEngine eq_refl eq_refl)
    as (H1 & H2 & _ & _ & H3 & _).
  split; [exact H1|]. split; [exact H2|]. split; [reflexivity | exact H3].
Defined.

(** ** The empty reference name *)



(** * Further properties of refname.go *)

(** ** Runs of the operations *)

Lemma withManifests_same index : withManifests index (Manifests index) = index.
Proof. by destruct index. Qed.

(** A run of a mutator on a store that answers: the result, the index it
    leaves stored, and the store it leaves behind. *)
Lemma UpdateReference_stored refname descriptor e :
  storeAnswers e ->
  (UpdateReference refname descriptor e).1 = None
  /\ storedIndex (UpdateReference refname descriptor e).2
     = withManifests (storedIndex e)
         (filter (fun d => refNameOf d ≠ refname) (Manifests (storedIndex e))
            ++ [setRefName refname descriptor])
  /\ storeAnswers (UpdateReference refname descriptor e).2
  /\ blobs (UpdateReference refname descriptor e).2 = blobs e.
Proof.
  intros [Hget Hput].
  pose proof (UpdateReference_run refname descriptor e Hget Hput) as Hrun.
  cbv zeta in Hrun. rewrite Hrun. cbn [fst snd storedIndex blobs].
  by rewrite dropReference_filter.
Qed.

Lemma DeleteReference_stored refname e :
  storeAnswers e ->
  (DeleteReference refname e).1 = None
  /\ storedIndex (DeleteReference refname e).2
     = withManifests (storedIndex e)
         (filter (fun d => refNameOf d ≠ refname) (Manifests (storedIndex e)))
  /\ storeAnswers (DeleteReference refname e).2
  /\ blobs (DeleteReference refname e).2 = blobs e.
Proof.
  intros [Hget Hput].
  pose proof (DeleteReference_run refname e Hget Hput) as Hrun.
  cbv zeta in Hrun. rewrite Hrun. cbn [fst snd storedIndex blobs].
  by rewrite dropReference_filter.
Qed.

Lemma AddReferences_stored refname descriptors e :
  storeAnswers e ->
  (AddReferences refname descriptors e).1 = None
  /\ storedIndex (AddReferences refname descriptors e).2
     = withManifests (storedIndex e)
         (Manifests (storedIndex e) ++ map (setRefName refname) descriptors)
  /\ storeAnswers (AddReferences refname descriptors e).2
  /\ blobs (AddReferences refname descriptors e).2 = blobs e.
Proof.
  intros [Hget Hput]. destruct descriptors as [|d ds].
  - change (AddReferences refname [] e) with (@None error, e). cbn [fst snd map].
    by rewrite app_nil_r, withManifests_same.
  - assert (Hne : d :: ds ≠ []) by discriminate.
    pose proof (AddReferences_run refname (d :: ds) e Hne Hget Hput) as Hrun.
    cbv zeta in Hrun. rewrite Hrun. cbn [fst snd storedIndex blobs]. done.
Qed.

Lemma ListReferences_run e :
  getIndexErr e = None ->
  ListReferences e
  = ((map refNameOf (filter carriesRefName (Manifests (storedIndex e))), None),
     record CallGetIndex e).
Proof.
  intros Hget. unfold ListReferences, GetIndex. cbn [getIndexErr record storedIndex].
  rewrite Hget. fold (record CallGetIndex e). by rewrite listRefs_loop.
Qed.

Lemma ResolveReference_run refname e :
  getIndexErr e = None ->
  ResolveReference refname e
  = match walkRoots (selectRoots refname (Manifests (storedIndex e))) []
            (record CallGetIndex e) with
    | (inr err, e') => (([], Some err), e')
    | (inl resolutions, e') =>
        ((resolutions, None),
         record (LogDebug resolutions
                   ("casext.ResolveReference(" +:+ refname +:+ ") got these descriptors")) e')
    end.
Proof.
  intros Hget. unfold ResolveReference, GetIndex. cbn [getIndexErr record storedIndex].
  rewrite Hget. reflexivity.
Qed.

(** ** The loop over the roots *)

(** The loop only adds walks to the trace: of all the roots when it goes
    through, of the roots up to the one whose walk fails otherwise. *)
Lemma walkRoots_engine roots resolutions e :
  exists walked rest,
    roots = walked ++ rest
    /\ (walkRoots roots resolutions e).2
       = mkEngine (storedIndex e) (blobs e) (getIndexErr e) (putIndexErr e)
           (trace e ++ map CallWalk walked)
    /\ (forall resolutions', (walkRoots roots resolutions e).1 = inl resolutions' ->
          rest = []).
Proof.
  revert resolutions e. induction roots as [|root roots IH]; intros resolutions e.
  - exists [], []. cbn [walkRoots fst snd map].
    split; [done|]. split; [destruct e; cbn; by rewrite app_nil_r|done].
  - cbn [walkRoots]. pose proof (Walk_engine root visit resolutions e) as He.
    destruct (Walk root visit resolutions e) as [[[err|] acc] e']; cbn [snd] in He; subst e'.
    + exists [root], roots. cbn [fst snd map]. split; [done|]. split; [done|discriminate].
    + destruct (IH acc (record (CallWalk root) e)) as (walked & rest & -> & Heng & Hrest).
      exists (root :: walked), rest. split; [done|]. split; [|exact Hrest].
      rewrite Heng. cbn [record storedIndex blobs getIndexErr putIndexErr trace map].
      by rewrite <- app_assoc.
Qed.

(** Roots that the visitor records are resolved as they are, one after
    the other. *)
Lemma walkRoots_resolvable roots resolutions e :
  Forall resolvable roots ->
  (walkRoots roots resolutions e).1 = inl (resolutions ++ roots).
Proof.
  intros Hroots. revert resolutions e.
  induction Hroots as [|root roots Hroot _ IH]; intros resolutions e.
  - cbn [walkRoots fst]. by rewrite app_nil_r.
  - cbn [walkRoots]. rewrite (Walk_root_recorded root resolutions e Hroot).
    rewrite IH. by rewrite <- app_assoc.
Qed.

Section VisitorInvariant.
Variable store : gmap string (list Descriptor).

(** Whatever the walker does, resolutions only ever grow by what the
    visitor records. *)
Lemma recurse_resolvable fuel d st :
  Forall resolvable st.2 ->
  Forall resolvable (recurse fuel store visit d st).2.2.
Proof.
  revert d st. induction fuel as [|fuel IH]; intros d [seen acc] Hacc; [done|].
  cbn [recurse fst snd]. destruct (decide (Digest d ∈ seen)); [done|].
  assert (Hvisit : Forall resolvable (visit d acc).2).
  { unfold visit. destruct (isKnownMediaType (MediaType d)) eqn:Hknown; cbn [andb].
    - destruct (bool_decide (MediaType d = MediaTypeImageManifest)) eqn:Hm; cbn [negb snd].
      + apply Forall_app. split; [done|]. constructor; [|done].
        left. by apply bool_decide_eq_true in Hm.
      + done.
    - cbn [snd]. apply Forall_app. split; [done|]. constructor; [|done].
      right. intros Hin. apply isKnownMediaType_spec in Hin. congruence. }
  destruct (visit d acc) as [[err|] acc']; cbn [snd] in Hvisit.
  - by destruct (decide (err = ErrSkipDescriptor)).
  - destruct (store !! Digest d) as [children|]; [|done].
    generalize ({[Digest d]} ∪ seen). revert acc' Hvisit.
    induction children as [|c cs IHc]; intros acc' Hacc' seen'; [done|].
    cbn [walkEach]. pose proof (IH c (seen', acc') Hacc') as Hc.
    destruct (recurse fuel store visit c (seen', acc')) as [[err|] [seen'' acc'']];
      cbn [snd] in *; [done|]. by apply IHc.
Qed.
End VisitorInvariant.

Lemma Walk_resolvable root acc e :
  Forall resolvable acc -> Forall resolvable (Walk root visit acc e).1.2.
Proof.
  intros Hacc. unfold Walk. cbn [record blobs].
  pose proof (recurse_resolvable (blobs e) (S (size (blobs e))) root (∅, acc) Hacc) as H.
  destruct (recurse _ _ _ _ _) as [err [seen acc']]. exact H.
Qed.

Lemma walkRoots_keeps_resolvable roots resolutions e resolutions' :
  Forall resolvable resolutions ->
  (walkRoots roots resolutions e).1 = inl resolutions' ->
  Forall resolvable resolutions'.
Proof.
  revert resolutions e. induction roots as [|root roots IH]; intros resolutions e Hres.
  - cbn [walkRoots fst]. by intros [= <-].
  - cbn [walkRoots]. pose proof (Walk_resolvable root resolutions e Hres) as Hwalk.
    destruct (Walk root visit resolutions e) as [[[err|] acc] e']; cbn [fst snd] in *.
    + discriminate.
    + by apply IH.
Qed.

(** ** Reference names through the loops *)

Lemma filter_comm_pred {A} (P Q : A -> Prop) `{!∀ x, Decision (P x)} `{!∀ x, Decision (Q x)}
    (l : list A) :
  filter P (filter Q l) = filter Q (filter P l).
Proof.
  induction l as [|x l IH]; [done|]. rewrite !filter_cons.
  destruct (decide (Q x)), (decide (P x)); rewrite ?filter_cons;
    rewrite ?decide_True, ?decide_False by done; by rewrite IH.
Qed.

Lemma filter_other_name r r' (l : list Descriptor) :
  r' ≠ r ->
  filter (fun d => refNameOf d = r') (filter (fun d => refNameOf d ≠ r) l)
  = filter (fun d => refNameOf d = r') l.
Proof.
  intros Hne. induction l as [|x l IH]; [done|]. rewrite !filter_cons.
  destruct (decide (refNameOf x ≠ r)) as [Hx|Hx].
  - rewrite filter_cons. destruct (decide (refNameOf x = r')); by rewrite IH.
  - rewrite decide_False; [done|]. intros Hx'. apply Hx. congruence.
Qed.

Lemma filter_none_matching r (l : list Descriptor) :
  Forall (fun d => refNameOf d ≠ r) l ->
  filter (fun d => refNameOf d ≠ r) l = l
  /\ filter (fun d => refNameOf d = r) l = [].
Proof.
  induction 1 as [|x l Hx _ [IH1 IH2]]; [done|]. rewrite !filter_cons.
  rewrite decide_True, decide_False by done. by rewrite IH1, IH2.
Qed.

Lemma names_of_tagged r (ds : list Descriptor) :
  map refNameOf (filter carriesRefName (map (setRefName r) ds)) = replicate (length ds) r.
Proof.
  induction ds as [|d ds IH]; [done|]. cbn [map length replicate]. rewrite filter_cons.
  rewrite decide_True.
  - cbn [map]. by rewrite refNameOf_setRefName, IH.
  - destruct (hasRefName_setRefName r d) as (m & Hm & Hkey).
    unfold carriesRefName, mapLookup. rewrite Hm, Hkey. eauto.
Qed.

Lemma names_of_kept r (l : list Descriptor) :
  map refNameOf (filter carriesRefName (filter (fun d => refNameOf d ≠ r) l))
  = filter (fun name => name ≠ r) (map refNameOf (filter carriesRefName l)).
Proof.
  induction l as [|x l IH]; [done|]. rewrite !filter_cons.
  destruct (decide (refNameOf x ≠ r)) as [Hx|Hx], (decide (carriesRefName x)) as [Hc|Hc];
    rewrite ?filter_cons; cbn [map]; rewrite ?filter_cons;
    rewrite ?decide_True, ?decide_False by done; cbn [map]; by rewrite IH.
Qed.

Lemma filter_all_tagged r (ds : list Descriptor) :
  filter (fun d => refNameOf d = r) (map (setRefName r) ds) = map (setRefName r) ds.
Proof.
  induction ds as [|d ds IH]; [done|]. cbn [map]. rewrite filter_cons.
  rewrite decide_True by apply refNameOf_setRefName. by rewrite IH.
Qed.

Lemma filter_no_tagged r r' (ds : list Descriptor) :
  r' ≠ r -> filter (fun d => refNameOf d = r') (map (setRefName r) ds) = [].
Proof.
  intros Hne. induction ds as [|d ds IH]; [done|]. cbn [map]. rewrite filter_cons.
  rewrite decide_False; [done|]. rewrite refNameOf_setRefName. congruence.
Qed.

Lemma filter_drop_tagged r (ds : list Descriptor) :
  filter (fun d => refNameOf d ≠ r) (map (setRefName r) ds) = [].
Proof.
  induction ds as [|d ds IH]; [done|]. cbn [map]. rewrite filter_cons.
  rewrite decide_False; [done|]. intros H. apply H, refNameOf_setRefName.
Qed.

Lemma length_filter_split r (l : list Descriptor) :
  length l = length (filter (fun d => refNameOf d ≠ r) l)
             + length (filter (fun d => refNameOf d = r) l).
Proof.
  induction l as [|x l IH]; [done|]. rewrite !filter_cons.
  destruct (decide (refNameOf x = r)) as [Hx|Hx].
  - rewrite decide_False by (intros H; by apply H). cbn [length]. lia.
  - rewrite decide_True by done. cbn [length]. lia.
Qed.

Lemma trace_record ev e : trace (record ev e) = trace e ++ [ev].
Proof. reflexivity. Qed.

Lemma warnings_app tr tr' : warnings (tr ++ tr') = warnings tr ++ warnings tr'.
Proof. apply omap_app. Qed.

Lemma puts_app tr tr' : puts (tr ++ tr') = puts tr ++ puts tr'.
Proof. apply omap_app. Qed.

Lemma walks_app tr tr' : walks (tr ++ tr') = walks tr ++ walks tr'.
Proof. apply omap_app. Qed.

Lemma walks_map_CallWalk roots : walks (map CallWalk roots) = roots.
Proof. induction roots as [|r roots IH]; [done|]. unfold walks in *. simpl. by f_equal. Qed.

Lemma puts_map_CallWalk roots : puts (map CallWalk roots) = [].
Proof. by induction roots. Qed.

Lemma warnings_map_CallWalk roots : warnings (map CallWalk roots) = [].
Proof. by induction roots. Qed.

(** ** AddReferences *)

(** X1: on a store that answers, [AddReferences] leaves every entry of the
    index where it was and appends the descriptors, tagged, in the order
    given: the index grows by their number, and so does the number of
    entries that carry the reference name; the other fields of the index
    are kept. *)
Theorem AddReferences_keeps_and_counts (refname : string) (descriptors : list Descriptor)
    (e : Engine) :
  storeAnswers e ->
  let before := storedIndex e in
  let after := storedIndex (AddReferences refname descriptors e).2 in
  (AddReferences refname descriptors e).1 = None
  /\ Manifests after = Manifests before ++ map (setRefName refname) descriptors
  /\ take (length (Manifests before)) (Manifests after) = Manifests before
  /\ length (Manifests after) = length (Manifests before) + length descriptors
  /\ length (selectRoots refname (Manifests after))
     = length (selectRoots refname (Manifests before)) + length descriptors
  /\ SchemaVersion after = SchemaVersion before
  /\ IndexAnnotations after = IndexAnnotations before.
Proof.
  intros Hstore. cbv zeta.
  destruct (AddReferences_stored refname descriptors e Hstore) as (Hok & -> & _).
  cbn [withManifests Manifests SchemaVersion IndexAnnotations].
  split; [done|]. split; [done|]. split; [by rewrite take_app_length|].
  split; [by rewrite length_app, length_map|]. split; [|done].
  rewrite !selectRoots_filter, filter_app, filter_all_tagged.
  by rewrite length_app, length_map.
Qed.

Lemma AddReferences_keeps_and_counts_witness :
  storeAnswers ambiguousEngine
  /\ length (selectRoots "latest"
       (Manifests (storedIndex
          (AddReferences "latest" [newManifest; annotatedManifest] ambiguousEngine).2)))
     = 4.
Proof.
  split; [split; reflexivity|].
  destruct (AddReferences_keeps_and_counts "latest" [newManifest; annotatedManifest]
              ambiguousEngine (conj eq_refl eq_refl)) as (_ & _ & _ & _ & -> & _).
  reflexivity.
Defined.

(** X2: once the index is fetched, [AddReferences] logs its warning about
    intended ambiguity exactly when more than one descriptor is given, one
    descriptor logs nothing, and this is so whether or not the commit that
    follows goes through. *)
Theorem AddReferences_warns_when_several (refname : string)
    (descriptors : list Descriptor) (e : Engine) :
  getIndexErr e = None ->
  descriptors ≠ [] ->
  warnings (trace (AddReferences refname descriptors e).2)
  = warnings (trace e)
    ++ (if decide (1 < length descriptors)
        then ["umoci has been requested to add multiple descriptors with the same reference name -- this is intentionally creating ambiguity in the OCI image that some tools may be unable to resolve"]
        else []).
Proof.
  intros Hget Hne. unfold AddReferences.
  destruct (decide (length descriptors = 0)) as [H0|_]; [by destruct descriptors|].
  unfold GetIndex, PutIndex, logWarn. cbn [getIndexErr record storedIndex].
  rewrite Hget.
  destruct (decide (1 < length descriptors));
    cbn [putIndexErr record trace]; destruct (putIndexErr e);
    cbn [snd trace]; rewrite ?trace_record, !warnings_app; cbn; by rewrite ?app_nil_r.
Qed.

Lemma AddReferences_warns_when_several_witness :
  warnings (trace (AddReferences "v1" [newManifest; annotatedManifest] ambiguousEngine).2)
  = ["umoci has been requested to add multiple descriptors with the same reference name -- this is intentionally creating ambiguity in the OCI image that some tools may be unable to resolve"]
  /\ warnings (trace (AddReferences "v1" [newManifest] ambiguousEngine).2) = [].
Proof.
  split.
  - rewrite (AddReferences_warns_when_several "v1" [newManifest; annotatedManifest]
               ambiguousEngine eq_refl ltac:(discriminate)). reflexivity.
  - rewrite (AddReferences_warns_when_several "v1" [newManifest]
               ambiguousEngine eq_refl ltac:(discriminate)). reflexivity.
Defined.

(** ** Failures of the store *)

(** X3: when the index cannot be fetched, each of [UpdateReference],
    [DeleteReference], [AddReferences] (with a descriptor to add) and
    [ListReferences] returns that error wrapped with get top-level index,
    after the one call of [GetIndex]: nothing is committed and nothing is
    logged. *)
Theorem fetch_failure_ends_operation (refname : string) (descriptor : Descriptor)
    (descriptors : list Descriptor) (e : Engine) (err : error) :
  getIndexErr e = Some err ->
  UpdateReference refname descriptor e
  = (Some (Wrap err "get top-level index"), record CallGetIndex e)
  /\ DeleteReference refname e
     = (Some (Wrap err "get top-level index"), record CallGetIndex e)
  /\ (descriptors ≠ [] ->
      AddReferences refname descriptors e
      = (Some (Wrap err "get top-level index"), record CallGetIndex e))
  /\ ListReferences e
     = (([], Some (Wrap err "get top-level index")), record CallGetIndex e).
Proof.
  intros Hget.
  unfold UpdateReference, DeleteReference, AddReferences, ListReferences, GetIndex.
  cbn [getIndexErr record]. rewrite Hget. fold (record CallGetIndex e).
  split; [done|]. split; [done|]. split; [|done].
  intros Hne. destruct (decide (length descriptors = 0)); [by destruct descriptors|done].
Qed.

Lemma fetch_failure_ends_operation_witness :
  DeleteReference "latest" unreadableEngine
  = (Some (Wrap (ErrExternal "open index.json") "get top-level index"),
     record CallGetIndex unreadableEngine)
  /\ storedIndex (DeleteReference "latest" unreadableEngine).2 = storedIndex unreadableEngine.
Proof.
  destruct (fetch_failure_ends_operation "latest" newManifest [] unreadableEngine
              (ErrExternal "open index.json") eq_refl) as (_ & Hdelete & _).
  split; [exact Hdelete|]. rewrite Hdelete. reflexivity.
Defined.

(** X4: when the index is fetched but the store refuses the commit, each
    mutator returns that error wrapped with replace index; [PutIndex] was
    handed, once, the whole index the mutator computed, and no warning is
    logged by [UpdateReference] and [DeleteReference]. *)
Theorem commit_failure_is_reported (refname : string) (descriptor : Descriptor)
    (descriptors : list Descriptor) (e : Engine) (err : error) :
  getIndexErr e = None ->
  putIndexErr e = Some err ->
  let old := Manifests (storedIndex e) in
  let kept := filter (fun d => refNameOf d ≠ refname) old in
  ((UpdateReference refname descriptor e).1 = Some (Wrap err "replace index")
   /\ puts (trace (UpdateReference refname descriptor e).2)
      = puts (trace e)
        ++ [withManifests (storedIndex e) (kept ++ [setRefName refname descriptor])]
   /\ warnings (trace (UpdateReference refname descriptor e).2) = warnings (trace e))
  /\ ((DeleteReference refname e).1 = Some (Wrap err "replace index")
      /\ puts (trace (DeleteReference refname e).2)
         = puts (trace e) ++ [withManifests (storedIndex e) kept]
      /\ warnings (trace (DeleteReference refname e).2) = warnings (trace e))
  /\ (descriptors ≠ [] ->
      (AddReferences refname descriptors e).1 = Some (Wrap err "replace index")
      /\ puts (trace (AddReferences refname descriptors e).2)
         = puts (trace e)
           ++ [withManifests (storedIndex e) (old ++ map (setRefName refname) descriptors)]).
Proof.
  intros Hget Hput. cbv zeta. split; [|split].
  - unfold UpdateReference, GetIndex, PutIndex, record; simpl.
    rewrite Hget; simpl. rewrite removedMoreThanOne_dropReference; simpl.
    rewrite Hput; simpl. rewrite dropReference_filter, !puts_app, !warnings_app.
    cbn. by rewrite ?app_nil_r.
  - unfold DeleteReference, GetIndex, PutIndex, record; simpl.
    rewrite Hget; simpl. rewrite removedMoreThanOne_dropReference; simpl.
    rewrite Hput; simpl. rewrite dropReference_filter, !puts_app, !warnings_app.
    cbn. by rewrite ?app_nil_r.
  - intros Hne. unfold AddReferences.
    destruct (decide (length descriptors = 0)); [by destruct descriptors|].
    unfold GetIndex, PutIndex, logWarn, record; simpl. rewrite Hget; simpl.
    rewrite convertDescriptors_map.
    destruct (decide (1 < length descriptors)); simpl; rewrite Hput; simpl;
      rewrite !puts_app; cbn; by rewrite ?app_nil_r.
Qed.

Lemma commit_failure_is_reported_witness :
  (UpdateReference "latest" newManifest readOnlyEngine).1
  = Some (Wrap (ErrExternal "index.json: read-only file system") "replace index")
  /\ length (puts (trace (UpdateReference "latest" newManifest readOnlyEngine).2)) = 1.
Proof.
  destruct (commit_failure_is_reported "latest" newManifest [] readOnlyEngine
              (ErrExternal "index.json: read-only file system") eq_refl eq_refl)
    as ((Herr & Hputs & _) & _).
  split; [exact Herr|]. rewrite Hputs. reflexivity.
Defined.

(** ** DeleteReference *)

(** X5: on a store that answers, [DeleteReference] commits the entries
    whose reference name is not [refname], as they were and in their order;
    no entry with that name is left, as many entries are gone as had the
    name, and the other fields of the index are kept. *)
Theorem DeleteReference_removes_exactly (refname : string) (e : Engine) :
  storeAnswers e ->
  let before := storedIndex e in
  let after := storedIndex (DeleteReference refname e).2 in
  (DeleteReference refname e).1 = None
  /\ Manifests after = filter (fun d => refNameOf d ≠ refname) (Manifests before)
  /\ selectRoots refname (Manifests after) = []
  /\ length (Manifests before)
     = length (Manifests after) + length (selectRoots refname (Manifests before))
  /\ puts (trace (DeleteReference refname e).2) = puts (trace e) ++ [after]
  /\ SchemaVersion after = SchemaVersion before
  /\ IndexAnnotations after = IndexAnnotations before.
Proof.
  intros Hstore. cbv zeta.
  destruct (DeleteReference_stored refname e Hstore) as (Hok & Hstored & _).
  rewrite Hstored. cbn [withManifests Manifests SchemaVersion IndexAnnotations].
  split; [done|]. split; [done|].
  split; [by rewrite selectRoots_filter, (filter_filter_not (fun d => refNameOf d = refname))|].
  split; [rewrite selectRoots_filter; apply length_filter_split|].
  split; [|done].
  destruct Hstore as [Hget Hput].
  pose proof (DeleteReference_run refname e Hget Hput) as Hrun. cbv zeta in Hrun.
  rewrite Hrun. cbn [snd trace]. rewrite !puts_app, dropReference_filter. cbn.
  by rewrite ?app_nil_r.
Qed.

Lemma DeleteReference_removes_exactly_witness :
  storeAnswers ambiguousEngine
  /\ Manifests (storedIndex (DeleteReference "latest" ambiguousEngine).2)
     = [ untagged MediaTypeImageManifest "sha256:u";
         tagged MediaTypeImageManifest "sha256:c" "stable" ].
Proof.
  split; [split; reflexivity|].
  destruct (DeleteReference_removes_exactly "latest" ambiguousEngine (conj eq_refl eq_refl))
    as (_ & -> & _).
  reflexivity.
Defined.

(** ** Tagging *)

Lemma taggedFrom_setRefName refname descriptor :
  taggedFrom refname (setRefName refname descriptor) descriptor.
Proof.
  unfold taggedFrom, setRefName, mapLookup. cbn [Annotations Size].
  split; [apply lookup_insert_eq|]. split; [|done].
  intros key Hkey. rewrite lookup_insert_ne by done.
  by destruct (Annotations descriptor).
Qed.

(** X6: the descriptor that [UpdateReference] appends, and each one that
    [AddReferences] appends, keeps the annotations it came with under every
    other key, and its size; a reference name it came with is replaced by
    [refname]. *)
Theorem tagging_keeps_other_annotations (refname : string) (descriptor : Descriptor)
    (descriptors : list Descriptor) (e : Engine) :
  storeAnswers e ->
  (exists d,
     last (Manifests (storedIndex (UpdateReference refname descriptor e).2)) = Some d
     /\ taggedFrom refname d descriptor)
  /\ (exists added,
        Manifests (storedIndex (AddReferences refname descriptors e).2)
        = Manifests (storedIndex e) ++ added
        /\ Forall2 (taggedFrom refname) added descriptors).
Proof.
  intros Hstore. split.
  - destruct (UpdateReference_stored refname descriptor e Hstore) as (_ & -> & _).
    cbn [withManifests Manifests]. exists (setRefName refname descriptor).
    split; [apply last_snoc|apply taggedFrom_setRefName].
  - destruct (AddReferences_stored refname descriptors e Hstore) as (_ & -> & _).
    cbn [withManifests Manifests]. exists (map (setRefName refname) descriptors).
    split; [done|]. clear. induction descriptors as [|d ds IH]; constructor; [|done].
    apply taggedFrom_setRefName.
Qed.

Lemma tagging_keeps_other_annotations_witness :
  storeAnswers ambiguousEngine
  /\ exists d,
       last (Manifests (storedIndex (UpdateReference "v3" annotatedManifest ambiguousEngine).2))
       = Some d
       /\ mapLookup (Annotations d) "org.opencontainers.image.created" = Some "2017-01-01"
       /\ mapLookup (Annotations d) AnnotationRefName = Some "v3".
Proof.
  split; [split; reflexivity|].
  destruct (proj1 (tagging_keeps_other_annotations "v3" annotatedManifest []
                     ambiguousEngine (conj eq_refl eq_refl)))
    as (d & Hlast & Hname & Hother & _).
  exists d. split; [exact Hlast|]. split; [|exact Hname].
  rewrite (Hother "org.opencontainers.image.created") by discriminate. reflexivity.
Defined.

(** ** How the mutators compose *)

(** X7: [UpdateReference] with the same arguments twice in a row, on a
    store that answers, leaves the index the first call left. *)
Theorem UpdateReference_idempotent (refname : string) (descriptor : Descriptor)
    (e : Engine) :
  storeAnswers e ->
  let first := UpdateReference refname descriptor e in
  let second := UpdateReference refname descriptor first.2 in
  first.1 = None /\ second.1 = None
  /\ storedIndex second.2 = storedIndex first.2.
Proof.
  intros Hstore. cbv zeta.
  destruct (UpdateReference_stored refname descriptor e Hstore) as (Hok1 & Hst1 & Hstore1 & _).
  destruct (UpdateReference_stored refname descriptor _ Hstore1) as (Hok2 & Hst2 & _).
  split; [done|]. split; [done|]. rewrite Hst2, Hst1.
  unfold withManifests. cbn [Manifests SchemaVersion IndexAnnotations]. f_equal.
  rewrite filter_app, (filter_filter_same (fun d => refNameOf d ≠ refname)).
  rewrite filter_cons, decide_False, filter_nil, app_nil_r; [done|].
  intros H. apply H, refNameOf_setRefName.
Qed.

Lemma UpdateReference_idempotent_witness :
  storeAnswers ambiguousEngine
  /\ storedIndex (UpdateReference "latest" newManifest
                    (UpdateReference "latest" newManifest ambiguousEngine).2).2
     = storedIndex (UpdateReference "latest" newManifest ambiguousEngine).2.
Proof.
  split; [split; reflexivity|].
  apply (UpdateReference_idempotent "latest" newManifest ambiguousEngine
           (conj eq_refl eq_refl)).
Defined.

(** X8: on a store that answers, [UpdateReference refname descriptor]
    leaves the index that [DeleteReference refname] followed by
    [AddReferences refname descriptor] leaves. *)
Theorem UpdateReference_is_delete_then_add (refname : string) (descriptor : Descriptor)
    (e : Engine) :
  storeAnswers e ->
  storedIndex (UpdateReference refname descriptor e).2
  = storedIndex (AddReferences refname [descriptor] (DeleteReference refname e).2).2.
Proof.
  intros Hstore.
  destruct (UpdateReference_stored refname descriptor e Hstore) as (_ & -> & _).
  destruct (DeleteReference_stored refname e Hstore) as (_ & Hdel & Hstore1 & _).
  destruct (AddReferences_stored refname [descriptor] _ Hstore1) as (_ & -> & _).
  rewrite Hdel. reflexivity.
Qed.

Lemma UpdateReference_is_delete_then_add_witness :
  storeAnswers ambiguousEngine
  /\ storedIndex (UpdateReference "latest" newManifest ambiguousEngine).2
     = storedIndex (AddReferences "latest" [newManifest]
                      (DeleteReference "latest" ambiguousEngine).2).2.
Proof.
  split; [split; reflexivity|].
  apply (UpdateReference_is_delete_then_add "latest" newManifest ambiguousEngine
           (conj eq_refl eq_refl)).
Defined.

(** X9: on a store that answers, deleting two reference names leaves the
    same index in either order. *)
Theorem DeleteReference_commutes (r1 r2 : string) (e : Engine) :
  storeAnswers e ->
  storedIndex (DeleteReference r2 (DeleteReference r1 e).2).2
  = storedIndex (DeleteReference r1 (DeleteReference r2 e).2).2.
Proof.
  intros Hstore.
  destruct (DeleteReference_stored r1 e Hstore) as (_ & H1 & Hstore1 & _).
  destruct (DeleteReference_stored r2 e Hstore) as (_ & H2 & Hstore2 & _).
  destruct (DeleteReference_stored r2 _ Hstore1) as (_ & -> & _).
  destruct (DeleteReference_stored r1 _ Hstore2) as (_ & -> & _).
  rewrite H1, H2. unfold withManifests. cbn [Manifests SchemaVersion IndexAnnotations].
  f_equal. apply (filter_comm_pred (fun d => refNameOf d ≠ r2) (fun d => refNameOf d ≠ r1)).
Qed.

Lemma DeleteReference_commutes_witness :
  storeAnswers ambiguousEngine
  /\ Manifests (storedIndex (DeleteReference "stable"
                               (DeleteReference "latest" ambiguousEngine).2).2)
     = [untagged MediaTypeImageManifest "sha256:u"]
  /\ Manifests (storedIndex (DeleteReference "latest"
                               (DeleteReference "stable" ambiguousEngine).2).2)
     = [untagged MediaTypeImageManifest "sha256:u"].
Proof.
  split; [split; reflexivity|].
  rewrite <- (DeleteReference_commutes "latest" "stable" ambiguousEngine
                (conj eq_refl eq_refl)).
  split; reflexivity.
Defined.

(** X10: a mutator called for one reference name leaves the entries of
    every other name as they were: on a store that answers, the roots that
    [ResolveReference] would select for another name are the same after
    [UpdateReference], [DeleteReference] and [AddReferences] as before. *)
Theorem other_names_untouched (refname other : string) (descriptor : Descriptor)
    (descriptors : list Descriptor) (e : Engine) :
  other ≠ refname ->
  storeAnswers e ->
  let roots := selectRoots other (Manifests (storedIndex e)) in
  selectRoots other (Manifests (storedIndex (UpdateReference refname descriptor e).2)) = roots
  /\ selectRoots other (Manifests (storedIndex (DeleteReference refname e).2)) = roots
  /\ selectRoots other (Manifests (storedIndex (AddReferences refname descriptors e).2))
     = roots.
Proof.
  intros Hother Hstore. cbv zeta.
  destruct (UpdateReference_stored refname descriptor e Hstore) as (_ & -> & _).
  destruct (DeleteReference_stored refname e Hstore) as (_ & -> & _).
  destruct (AddReferences_stored refname descriptors e Hstore) as (_ & -> & _).
  cbn [withManifests Manifests]. rewrite !selectRoots_filter, !filter_app.
  rewrite (filter_other_name refname other) by done.
  rewrite (filter_no_tagged refname other descriptors Hother).
  pose proof (filter_no_tagged refname other [descriptor] Hother) as Hone.
  cbn [map] in Hone. rewrite Hone. by rewrite !app_nil_r.
Qed.

Lemma other_names_untouched_witness :
  "stable" ≠ "latest" /\ storeAnswers ambiguousEngine
  /\ selectRoots "stable"
       (Manifests (storedIndex (UpdateReference "latest" newManifest ambiguousEngine).2))
     = [tagged MediaTypeImageManifest "sha256:c" "stable"].
Proof.
  split; [discriminate|]. split; [split; reflexivity|].
  destruct (other_names_untouched "latest" "stable" newManifest [] ambiguousEngine
              ltac:(discriminate) (conj eq_refl eq_refl)) as (-> & _).
  reflexivity.
Defined.

(** X11: when no entry of the index has the reference name, adding
    descriptors under it and then deleting it, on a store that answers,
    leaves the index as it was at the start. *)
Theorem add_then_delete_restores (refname : string) (descriptors : list Descriptor)
    (e : Engine) :
  storeAnswers e ->
  Forall (fun d => refNameOf d ≠ refname) (Manifests (storedIndex e)) ->
  storedIndex (DeleteReference refname (AddReferences refname descriptors e).2).2
  = storedIndex e.
Proof.
  intros Hstore Hfresh.
  destruct (AddReferences_stored refname descriptors e Hstore) as (_ & Hadd & Hstore1 & _).
  destruct (DeleteReference_stored refname _ Hstore1) as (_ & -> & _).
  rewrite Hadd. unfold withManifests. cbn [Manifests SchemaVersion IndexAnnotations].
  rewrite filter_app, filter_drop_tagged, app_nil_r.
  rewrite (proj1 (filter_none_matching refname _ Hfresh)). by destruct (storedIndex e).
Qed.

Lemma add_then_delete_restores_witness :
  storeAnswers ambiguousEngine
  /\ Forall (fun d => refNameOf d ≠ "v9") ambiguousManifests
  /\ storedIndex (DeleteReference "v9"
                    (AddReferences "v9" [newManifest; annotatedManifest] ambiguousEngine).2).2
     = storedIndex ambiguousEngine.
Proof.
  assert (Hfresh : Forall (fun d => refNameOf d ≠ "v9") ambiguousManifests).
  { repeat constructor; discriminate. }
  split; [split; reflexivity|]. split; [exact Hfresh|].
  apply (add_then_delete_restores "v9" [newManifest; annotatedManifest] ambiguousEngine
           (conj eq_refl eq_refl) Hfresh).
Defined.

(** ** The readers *)

(** Where the loop over the roots stops: after all of them, or at the
    first root whose walk fails, with that root's digest in the error. *)
Lemma walkRoots_trace roots resolutions e :
  match (walkRoots roots resolutions e).1 with
  | inl _ => trace (walkRoots roots resolutions e).2 = trace e ++ map CallWalk roots
  | inr err =>
      exists walked root rest cause,
        roots = walked ++ root :: rest
        /\ err = Wrap cause ("walk " +:+ Digest root)
        /\ trace (walkRoots roots resolutions e).2
           = trace e ++ map CallWalk (walked ++ [root])
  end.
Proof.
  revert resolutions e. induction roots as [|root roots IH]; intros resolutions e.
  - cbn [walkRoots fst snd map]. by rewrite app_nil_r.
  - cbn [walkRoots]. pose proof (Walk_engine root visit resolutions e) as He.
    destruct (Walk root visit resolutions e) as [[[err|] acc] e']; cbn [snd] in He; subst e'.
    + cbn [fst snd]. exists [], root, roots, err. by rewrite trace_record.
    + specialize (IH acc (record (CallWalk root) e)).
      destruct (walkRoots roots acc (record (CallWalk root) e)).1 as [res|err].
      * rewrite IH, trace_record. cbn [map]. by rewrite <- app_assoc.
      * destruct IH as (walked & root' & rest & cause & -> & -> & ->).
        exists (root :: walked), root', rest, cause. rewrite trace_record.
        split; [done|]. split; [done|]. cbn [map app]. by rewrite <- app_assoc.
Qed.

Lemma resolvable_setRefName refname d : resolvable d -> resolvable (setRefName refname d).
Proof. by destruct d. Qed.

Lemma ResolveReference_roots_resolvable refname e :
  getIndexErr e = None ->
  Forall resolvable (selectRoots refname (Manifests (storedIndex e))) ->
  (ResolveReference refname e).1 = (selectRoots refname (Manifests (storedIndex e)), None).
Proof.
  intros Hget Hroots. rewrite (ResolveReference_run refname e Hget).
  pose proof (walkRoots_resolvable _ [] (record CallGetIndex e) Hroots) as Hloop.
  destruct (walkRoots _ [] (record CallGetIndex e)) as [[res|err] e']; cbn [fst] in *;
    [|discriminate]. by injection Hloop as ->.
Qed.

Lemma count_listed_names r (l : list Descriptor) :
  length (filter (fun name => name = r) (map refNameOf (filter carriesRefName l)))
  <= length (filter (fun d => refNameOf d = r) l)
  /\ (r ≠ "" ->
      length (filter (fun name => name = r) (map refNameOf (filter carriesRefName l)))
      = length (filter (fun d => refNameOf d = r) l)).
Proof.
  induction l as [|x l [IH1 IH2]]; [done|]. rewrite !filter_cons.
  destruct (decide (carriesRefName x)) as [Hc|Hc].
  - cbn [map]. rewrite filter_cons.
    destruct (decide (refNameOf x = r)); cbn [length]; split; try lia;
      intros Hr; specialize (IH2 Hr); lia.
  - assert (Hx : refNameOf x = "").
    { apply refNameOf_unset. unfold carriesRefName in Hc.
      by destruct (mapLookup (Annotations x) AnnotationRefName); [destruct Hc; eauto|]. }
    destruct (decide (refNameOf x = r)) as [Hxr|Hxr]; cbn [length]; split; try lia.
    + intros Hr. congruence.
    + intros Hr. specialize (IH2 Hr). lia.
Qed.

(** X12: neither reader changes the image: whatever the store holds and
    however the call ends, [ResolveReference] and [ListReferences] leave
    the stored index as it was, hand nothing to [PutIndex] and log no
    warning. *)
Theorem readers_never_write (refname : string) (e : Engine) :
  (storedIndex (ResolveReference refname e).2 = storedIndex e
   /\ puts (trace (ResolveReference refname e).2) = puts (trace e)
   /\ warnings (trace (ResolveReference refname e).2) = warnings (trace e))
  /\ (storedIndex (ListReferences e).2 = storedIndex e
      /\ puts (trace (ListReferences e).2) = puts (trace e)
      /\ warnings (trace (ListReferences e).2) = warnings (trace e)
      /\ walks (trace (ListReferences e).2) = walks (trace e)).
Proof.
  split.
  - destruct (getIndexErr e) as [err|] eqn:Hget.
    + unfold ResolveReference, GetIndex. cbn [getIndexErr record]. rewrite Hget.
      cbn [snd]. rewrite trace_record, puts_app, warnings_app. cbn.
      by rewrite !app_nil_r.
    + rewrite (ResolveReference_run refname e Hget).
      destruct (walkRoots_engine (selectRoots refname (Manifests (storedIndex e))) []
                  (record CallGetIndex e)) as (walked & rest & _ & Heng & _).
      destruct (walkRoots _ [] (record CallGetIndex e)) as [[res|err] e'];
        cbn [snd] in Heng; subst e'; cbn [snd]; rewrite ?trace_record;
        cbn [storedIndex trace record]; rewrite ?trace_record;
        rewrite !puts_app, !warnings_app, puts_map_CallWalk, warnings_map_CallWalk;
        cbn; by rewrite !app_nil_r.
  - destruct (getIndexErr e) as [err|] eqn:Hget.
    + unfold ListReferences, GetIndex. cbn [getIndexErr record]. rewrite Hget.
      cbn [snd]. rewrite trace_record, puts_app, warnings_app, walks_app. cbn.
      by rewrite !app_nil_r.
    + rewrite (ListReferences_run e Hget). cbn [snd].
      rewrite trace_record, puts_app, warnings_app, walks_app. cbn. by rewrite !app_nil_r.
Qed.

(** X13: every descriptor that [ResolveReference] returns is an image
    manifest or has a media type the specification does not know; a
    descriptor of another known type (an index, a layer, a config) is never
    among the resolutions. *)
Theorem ResolveReference_only_resolvable (refname : string) (e : Engine) :
  Forall resolvable (ResolveReference refname e).1.1
  /\ (forall d, d ∈ (ResolveReference refname e).1.1 ->
        isKnownMediaType (MediaType d) = true ->
        MediaType d = MediaTypeImageManifest).
Proof.
  assert (H : Forall resolvable (ResolveReference refname e).1.1).
  { destruct (getIndexErr e) as [err|] eqn:Hget.
    - unfold ResolveReference, GetIndex. cbn [getIndexErr record]. by rewrite Hget.
    - rewrite (ResolveReference_run refname e Hget).
      pose proof (walkRoots_keeps_resolvable
                    (selectRoots refname (Manifests (storedIndex e))) []
                    (record CallGetIndex e)) as Hkeep.
      destruct (walkRoots _ [] (record CallGetIndex e)) as [[res|err] e']; cbn [fst] in *.
      + by apply (Hkeep res).
      + done. }
  split; [exact H|]. intros d Hd Hknown.
  destruct (proj1 (Forall_forall _ _) H d Hd) as [Hm|Hunknown]; [done|].
  destruct Hunknown. by apply isKnownMediaType_spec.
Qed.

(** X14: when no entry of the index has the reference name,
    [ResolveReference] returns no descriptor and no error, and walks
    nothing. *)
Theorem ResolveReference_without_match (refname : string) (e : Engine) :
  getIndexErr e = None ->
  Forall (fun d => refNameOf d ≠ refname) (Manifests (storedIndex e)) ->
  (ResolveReference refname e).1 = ([], None)
  /\ walks (trace (ResolveReference refname e).2) = walks (trace e).
Proof.
  intros Hget Hnone. rewrite (ResolveReference_run refname e Hget).
  rewrite selectRoots_filter, (proj2 (filter_none_matching refname _ Hnone)).
  cbn [walkRoots fst snd record trace]. split; [done|].
  rewrite !walks_app. cbn. by rewrite !app_nil_r.
Qed.

Lemma ResolveReference_without_match_witness :
  getIndexErr taggedEngine = None
  /\ (ResolveReference "v2" taggedEngine).1 = ([], None).
Proof.
  split; [reflexivity|].
  apply (ResolveReference_without_match "v2" taggedEngine eq_refl).
  repeat constructor; discriminate.
Defined.

(** X15: when every entry that has the reference name is an image
    manifest or of an unknown media type, [ResolveReference] returns these
    entries themselves, all of them, in the order of the index and with
    their repetitions, after one walk for each. *)
Theorem ResolveReference_returns_matching_entries (refname : string) (e : Engine) :
  getIndexErr e = None ->
  let roots := selectRoots refname (Manifests (storedIndex e)) in
  Forall resolvable roots ->
  (ResolveReference refname e).1 = (roots, None)
  /\ roots = filter (fun d => refNameOf d = refname) (Manifests (storedIndex e))
  /\ walks (trace (ResolveReference refname e).2) = walks (trace e) ++ roots.
Proof.
  intros Hget roots Hroots. subst roots.
  split; [by apply ResolveReference_roots_resolvable|].
  split; [apply selectRoots_filter|].
  rewrite (ResolveReference_run refname e Hget).
  pose proof (walkRoots_resolvable _ [] (record CallGetIndex e) Hroots) as Hloop.
  pose proof (walkRoots_trace (selectRoots refname (Manifests (storedIndex e))) []
                (record CallGetIndex e)) as Htrace.
  rewrite Hloop in Htrace.
  destruct (walkRoots _ [] (record CallGetIndex e)) as [[res|err] e']; cbn [fst snd] in *;
    [|discriminate].
  rewrite trace_record, Htrace, trace_record, !walks_app, walks_map_CallWalk. cbn.
  by rewrite !app_nil_r.
Qed.

Lemma ResolveReference_returns_matching_entries_witness :
  (ResolveReference "latest" ambiguousEngine).1
  = ([ tagged MediaTypeImageManifest "sha256:a" "latest";
       tagged MediaTypeImageManifest "sha256:b" "latest" ], None).
Proof.
  apply (ResolveReference_returns_matching_entries "latest" ambiguousEngine eq_refl).
  repeat constructor; by left.
Defined.

(** X16: [ResolveReference] walks the matching entries in the order of
    the index. When it returns without error it has walked each of them
    once; when it returns an error that is not the fetch's, it has walked
    the entries up to one whose digest the error names, and none after
    it. *)
Theorem ResolveReference_walks_in_index_order (refname : string) (e : Engine) :
  getIndexErr e = None ->
  let roots := selectRoots refname (Manifests (storedIndex e)) in
  let after := ResolveReference refname e in
  match after.1.2 with
  | None => walks (trace after.2) = walks (trace e) ++ roots
  | Some err =>
      exists walked root rest cause,
        roots = walked ++ root :: rest
        /\ err = Wrap cause ("walk " +:+ Digest root)
        /\ walks (trace after.2) = walks (trace e) ++ walked ++ [root]
        /\ after.1.1 = []
  end.
Proof.
  intros Hget. cbv zeta. rewrite (ResolveReference_run refname e Hget).
  pose proof (walkRoots_trace (selectRoots refname (Manifests (storedIndex e))) []
                (record CallGetIndex e)) as Htrace.
  destruct (walkRoots _ [] (record CallGetIndex e)) as [[res|err] e']; cbn [fst snd] in *.
  - rewrite trace_record, Htrace, trace_record, !walks_app, walks_map_CallWalk. cbn.
    by rewrite !app_nil_r.
  - destruct Htrace as (walked & root & rest & cause & Hroots & -> & ->).
    exists walked, root, rest, cause. split; [done|]. split; [done|]. split; [|done].
    rewrite trace_record, !walks_app, walks_map_CallWalk. cbn. by rewrite !app_nil_r.
Qed.

Lemma ResolveReference_walks_in_index_order_witness :
  getIndexErr brokenEngine = None
  /\ exists walked root rest cause,
       selectRoots "v1" (Manifests (storedIndex brokenEngine)) = walked ++ root :: rest
       /\ (ResolveReference "v1" brokenEngine).1.2
          = Some (Wrap cause ("walk " +:+ Digest root))
       /\ walks (trace (ResolveReference "v1" brokenEngine).2) = walked ++ [root].
Proof.
  split; [reflexivity|].
  pose proof (ResolveReference_walks_in_index_order "v1" brokenEngine eq_refl) as H.
  cbv zeta in H.
  destruct (ResolveReference "v1" brokenEngine).1.2 as [err|] eqn:Herr; [|discriminate Herr].
  destruct H as (walked & root & rest & cause & Hroots & -> & Hwalks & _).
  exists walked, root, rest, cause. split; [exact Hroots|]. split; [reflexivity|exact Hwalks].
Defined.

(** X17: the names that [ListReferences] returns and the entries that
    [ResolveReference] selects agree: a name is listed at most as often as
    the index has entries that match it, exactly as often when the name is
    not empty, so every listed name has a matching entry. For the empty
    name the entries without the annotation match too, and are not
    listed. *)
Theorem listed_names_have_roots (refname : string) (e : Engine) :
  getIndexErr e = None ->
  let names := (ListReferences e).1.1 in
  let roots := selectRoots refname (Manifests (storedIndex e)) in
  length (filter (fun name => name = refname) names) <= length roots
  /\ (refname ≠ "" -> length (filter (fun name => name = refname) names) = length roots)
  /\ (refname ∈ names -> roots ≠ []).
Proof.
  intros Hget. cbv zeta. rewrite (ListReferences_run e Hget). cbn [fst].
  rewrite selectRoots_filter.
  destruct (count_listed_names refname (Manifests (storedIndex e))) as [Hle Heq].
  split; [exact Hle|]. split; [exact Heq|].
  intros Hin Hnil. rewrite Hnil in Hle. cbn [length] in Hle.
  assert (Hin' : refname ∈ filter (fun name => name = refname)
                   (map refNameOf (filter carriesRefName (Manifests (storedIndex e))))).
  { by apply list_elem_of_filter. }
  destruct (filter _ (map refNameOf _)); [by apply elem_of_nil in Hin'|cbn in Hle; lia].
Qed.

Lemma listed_names_have_roots_witness :
  getIndexErr ambiguousEngine = None
  /\ length (filter (fun name => name = "latest") (ListReferences ambiguousEngine).1.1) = 2
  /\ length (filter (fun name => name = "") (ListReferences ambiguousEngine).1.1) = 0
  /\ length (selectRoots "" (Manifests (storedIndex ambiguousEngine))) = 1.
Proof.
  split; [reflexivity|].
  destruct (listed_names_have_roots "latest" ambiguousEngine eq_refl) as (_ & Heq & _).
  split; [|split; reflexivity].
  rewrite (Heq ltac:(discriminate)). reflexivity.
Defined.

(** ** A reader after a mutator *)

(** X18: what [ListReferences] returns after a mutator, on a store that
    answers: after [DeleteReference] the names it returned before without
    [refname]; after [UpdateReference] these followed by [refname] once;
    after [AddReferences] all the names it returned before followed by
    [refname] once for each descriptor added. *)
Theorem ListReferences_after_mutators (refname : string) (descriptor : Descriptor)
    (descriptors : list Descriptor) (e : Engine) :
  storeAnswers e ->
  let names := (ListReferences e).1.1 in
  (ListReferences (DeleteReference refname e).2).1
  = (filter (fun name => name ≠ refname) names, None)
  /\ (ListReferences (UpdateReference refname descriptor e).2).1
     = (filter (fun name => name ≠ refname) names ++ [refname], None)
  /\ (ListReferences (AddReferences refname descriptors e).2).1
     = (names ++ replicate (length descriptors) refname, None).
Proof.
  intros Hstore. cbv zeta.
  destruct (DeleteReference_stored refname e Hstore) as (_ & Hdel & [Hget1 _] & _).
  destruct (UpdateReference_stored refname descriptor e Hstore) as (_ & Hupd & [Hget2 _] & _).
  destruct (AddReferences_stored refname descriptors e Hstore) as (_ & Hadd & [Hget3 _] & _).
  rewrite (ListReferences_run _ Hget1), (ListReferences_run _ Hget2),
    (ListReferences_run _ Hget3), (ListReferences_run e (proj1 Hstore)).
  cbn [fst]. rewrite Hdel, Hupd, Hadd. cbn [withManifests Manifests].
  rewrite !filter_app, !map_app, names_of_kept, names_of_tagged.
  pose proof (names_of_tagged refname [descriptor]) as Hone. cbn [map length replicate] in Hone.
  by rewrite Hone.
Qed.

Lemma ListReferences_after_mutators_witness :
  storeAnswers ambiguousEngine
  /\ (ListReferences (DeleteReference "latest" ambiguousEngine).2).1 = (["stable"], None)
  /\ (ListReferences (UpdateReference "latest" newManifest ambiguousEngine).2).1
     = (["stable"; "latest"], None).
Proof.
  split; [split; reflexivity|].
  destruct (ListReferences_after_mutators "latest" newManifest [] ambiguousEngine
              (conj eq_refl eq_refl)) as (Hdel & Hupd & _).
  split; [rewrite Hdel|rewrite Hupd]; reflexivity.
Defined.

(** X19: after [DeleteReference refname], on a store that answers,
    [ResolveReference refname] returns no descriptor and no error, and
    walks nothing. *)
Theorem DeleteReference_then_ResolveReference (refname : string) (e : Engine) :
  storeAnswers e ->
  let e1 := (DeleteReference refname e).2 in
  (ResolveReference refname e1).1 = ([], None)
  /\ walks (trace (ResolveReference refname e1).2) = walks (trace e).
Proof.
  intros Hstore. cbv zeta.
  destruct (DeleteReference_stored refname e Hstore) as (_ & Hdel & [Hget1 _] & _).
  rewrite (ResolveReference_run _ _ Hget1), Hdel. cbn [withManifests Manifests].
  rewrite selectRoots_filter, (filter_filter_not (fun d => refNameOf d = refname)).
  cbn [walkRoots fst snd]. split; [done|].
  destruct Hstore as [Hget Hput].
  pose proof (DeleteReference_run refname e Hget Hput) as Hrun. cbv zeta in Hrun.
  rewrite Hrun. cbn [snd record trace]. rewrite !walks_app. cbn. by rewrite !app_nil_r.
Qed.

Lemma DeleteReference_then_ResolveReference_witness :
  storeAnswers ambiguousEngine
  /\ (ResolveReference "latest" (DeleteReference "latest" ambiguousEngine).2).1 = ([], None).
Proof.
  split; [split; reflexivity|].
  apply (DeleteReference_then_ResolveReference "latest" ambiguousEngine
           (conj eq_refl eq_refl)).
Defined.

(** X20: after [UpdateReference refname descriptor] of an image manifest
    or a descriptor of unknown media type, on a store that answers,
    [ResolveReference refname] returns that descriptor, tagged, and nothing
    else, however many entries had the name before. *)
Theorem UpdateReference_then_ResolveReference (refname : string) (descriptor : Descriptor)
    (e : Engine) :
  storeAnswers e ->
  resolvable descriptor ->
  (ResolveReference refname (UpdateReference refname descriptor e).2).1
  = ([setRefName refname descriptor], None).
Proof.
  intros Hstore Hres.
  destruct (UpdateReference_stored refname descriptor e Hstore) as (_ & Hupd & [Hget1 _] & _).
  assert (Hroots : selectRoots refname
                     (Manifests (storedIndex (UpdateReference refname descriptor e).2))
                   = [setRefName refname descriptor]).
  { rewrite Hupd. cbn [withManifests Manifests].
    rewrite selectRoots_filter, filter_app,
      (filter_filter_not (fun d => refNameOf d = refname)).
    rewrite filter_cons, decide_True by apply refNameOf_setRefName. done. }
  rewrite (ResolveReference_roots_resolvable _ _ Hget1); rewrite Hroots; [done|].
  constructor; [by apply resolvable_setRefName|done].
Qed.

Lemma UpdateReference_then_ResolveReference_witness :
  storeAnswers ambiguousEngine /\ resolvable newManifest
  /\ (ResolveReference "latest" (UpdateReference "latest" newManifest ambiguousEngine).2).1
     = ([tagged MediaTypeImageManifest "sha256:d" "latest"], None).
Proof.
  split; [split; reflexivity|]. split; [by left|].
  rewrite (UpdateReference_then_ResolveReference "latest" newManifest ambiguousEngine
             (conj eq_refl eq_refl) (or_introl eq_refl)).
  reflexivity.
Defined.
